(** * GraphQLQueryManager: the batching queue, the in-flight cache and the
      condition builder of typeorm-graphql-loader

    A shallow embedding of [src/chaining/GraphQLQueryManager.ts].  The manager
    is a record holding the queue, the cache and the handle of the last
    scheduled flush; every method is a function on that record.  What the
    manager only calls (the GraphQL info parser, the query resolver, the
    formatter, md5, the database) is gathered in the class [Collaborators].
    The TypeORM query builder is the list of calls it has received.  The
    asynchronous remainder of a flush is a list of continuations that the
    event loop runs in an order of its choosing, over the manager and a trace
    of the callback invocations made. *)

From stdpp Require Import gmap strings list fin_maps.

Set Default Proof Using "Type".

(** ** Data model *)

(** A promise is an object; the cache stores references, so a promise is
    represented by its identity. *)
Definition Promise := nat.

(** What [getOne] / [getMany] fulfil with, and what a failure carries. *)
Definition Value := string.
Definition ErrorValue := string.

(** TypeORM's [Brackets]: an opaque composite condition. *)
Inductive Brackets := mkBrackets (id : nat).

(** [ObjectLiteral]: a JavaScript object used as a map of named parameters. *)
Abbreviation ObjectLiteral := (gmap string string).

(** [{ condition, params? }], tagged by [isLoaderWhereExpression]. *)
Record LoaderWhereExpression := {
  condition : string;
  params : option ObjectLiteral;
}.

(** [ChainableWhereExpression = LoaderWhereExpression | Brackets].  The
    constructor is the [isLoaderWhereExpression] discriminant. *)
Inductive ChainableWhereExpression :=
| IsLoaderWhere (w : LoaderWhereExpression)
| IsBrackets (b : Brackets).

(** [string | Brackets]: the first argument of [where] / [andWhere] /
    [orWhere], and the elements of the list that [processQueryMeta]
    fingerprints. *)
Inductive WhereArgument :=
| ArgString (s : string)
| ArgBrackets (b : Brackets).

(** The run-time value of a member of the TypeScript enum
    [LoaderSearchMethod].  The enum's declaration is not among the sources;
    an enum member is a number, or a string when the declaration initialises
    it with one. *)
Inductive LoaderSearchMethod :=
| EnumNumber (n : nat)
| EnumString (s : string).

(** JavaScript truthiness of such a value: [0] and the empty string are
    falsy. *)
Definition truthy (m : LoaderSearchMethod) : bool :=
  match m with
  | EnumNumber O => false
  | EnumNumber (S _) => true
  | EnumString EmptyString => false
  | EnumString (String _ _) => true
  end.

(** [searchColumns: Array<string | Array<string>>] *)
Inductive SearchColumn :=
| Column (name : string)
| JoinedColumns (names : list string).

Record SearchOptions := {
  searchColumns : list SearchColumn;
  searchText : string;
  searchMethod : option LoaderSearchMethod;
  caseSensitive : option bool;
}.

(** [GraphQLEntityFields]: field name to [{ children, arguments? }], one
    property after the other. *)
Inductive GraphQLEntityFields :=
| NoFields
| Field (name : string) (children : GraphQLEntityFields)
    (arguments : option (list (string * string))) (rest : GraphQLEntityFields).

Record QueryPredicates := {
  andWhere : list ChainableWhereExpression;
  orWhere : list ChainableWhereExpression;
  search : list SearchOptions;
  order : list (string * string);
  selectFields : list string;
}.

(** [entity: Function | string] *)
Inductive EntityRef :=
| EntityByName (name : string)
| EntityClass (name : string).

(** A queued request.  Its two stored callbacks [resolve] and [reject] are
    not fields: a call of one of them is an [Invocation] in the trace, naming
    the request by its position in the batch that was drained. *)
Record QueueItem := {
  many : bool;
  key : string;
  fields : option GraphQLEntityFields;
  predicates : QueryPredicates;
  entity : EntityRef;
}.

Record QueryMeta := {
  meta_key : string;
  meta_fields : option GraphQLEntityFields;
  meta_found : bool;
  meta_item : option Promise;
}.

(** ** The query builder, as the calls it received *)

Inductive QBCall :=
| Select (columns : list string)
| Where (w : WhereArgument) (p : option ObjectLiteral)
| AndWhere (w : WhereArgument) (p : option ObjectLiteral)
| OrWhere (w : WhereArgument) (p : option ObjectLiteral)
| OtherCall (method : string).

Record SelectQueryBuilder := {
  qb_alias : string;
  qb_calls : list QBCall;
}.

Definition qb_call (c : QBCall) (qb : SelectQueryBuilder) : SelectQueryBuilder :=
  {| qb_alias := qb_alias qb; qb_calls := qb_calls qb ++ [c] |}.

Definition qb_where w p := qb_call (Where w p).
Definition qb_andWhere w p := qb_call (AndWhere w p).
Definition qb_orWhere w p := qb_call (OrWhere w p).

(** How a promise returned by [getOne] / [getMany] settles. *)
Inductive Settlement :=
| Fulfilled (v : Value)
| RejectedWith (e : ErrorValue).

(** ** What the manager calls but does not define *)

Class Collaborators := {
  (** [GraphQLResolveInfo | FieldNodeInfo] *)
  Info : Type;
  (** [GraphQLInfoParser.graphqlFields] *)
  graphqlFields : Info → option GraphQLEntityFields;
  (** [JSON.stringify([where, fields])] *)
  JSON_stringify : list WhereArgument → option GraphQLEntityFields → string;
  (** [crypto.createHash("md5").update(s).digest().toString("hex")] *)
  md5_hex : string → string;
  (** [LoaderSearchMethod.ANY_POSITION] *)
  ANY_POSITION : LoaderSearchMethod;
  (** [GraphQLQueryResolver.createQuery(name, fields, connection, qb, alias)] *)
  createQuery :
    string → option GraphQLEntityFields → SelectQueryBuilder → string →
    SelectQueryBuilder;
  (** [Formatter.formatSearchColumns(searchColumns, alias, caseSensitive)] *)
  formatSearchColumns : list SearchColumn → string → option bool → list string;
  (** [Formatter.getSearchMethodMapping(method, searchText)] *)
  getSearchMethodMapping : LoaderSearchMethod → string → string;
  (** the database answering [getMany()] and [getOne()] *)
  getMany : SelectQueryBuilder → Settlement;
  getOne : SelectQueryBuilder → Settlement;
}.

(** ** The manager *)

(** A handle returned by [setImmediate]. *)
Definition Immediate := nat.

(** The four private fields of the class, then Node's immediate queue: the
    handles whose callback (always [_processQueue]) has been scheduled and
    neither run nor cleared, and the next fresh handle. *)
Record Manager := {
  _queue : list QueueItem;
  _cache : gmap string Promise;
  _immediate : option Immediate;
  _defaultLoaderSearchMethod : LoaderSearchMethod;
  immediates : list Immediate;
  next_immediate : Immediate;
}.

Definition with_queue (q : list QueueItem) (m : Manager) : Manager :=
  {| _queue := q; _cache := _cache m; _immediate := _immediate m;
     _defaultLoaderSearchMethod := _defaultLoaderSearchMethod m;
     immediates := immediates m; next_immediate := next_immediate m |}.

Definition with_cache (c : gmap string Promise) (m : Manager) : Manager :=
  {| _queue := _queue m; _cache := c; _immediate := _immediate m;
     _defaultLoaderSearchMethod := _defaultLoaderSearchMethod m;
     immediates := immediates m; next_immediate := next_immediate m |}.

(** [setImmediate(cb)]: a fresh handle, scheduled after those already there. *)
Definition setImmediate (m : Manager) : Immediate * Manager :=
  (next_immediate m,
   {| _queue := _queue m; _cache := _cache m; _immediate := _immediate m;
      _defaultLoaderSearchMethod := _defaultLoaderSearchMethod m;
      immediates := immediates m ++ [next_immediate m];
      next_immediate := S (next_immediate m) |}).

(** [clearImmediate(h)]: [h] is no longer scheduled; nothing happens when it
    already ran or was cleared. *)
Definition clearImmediate (h : Immediate) (m : Manager) : Manager :=
  {| _queue := _queue m; _cache := _cache m; _immediate := _immediate m;
     _defaultLoaderSearchMethod := _defaultLoaderSearchMethod m;
     immediates := filter (λ h', h' ≠ h) (immediates m);
     next_immediate := next_immediate m |}.

Section manager.
Context `{Collaborators}.

(** [constructor(_connection, options)]: [defaultSearchMethod ?? ANY_POSITION] *)
Definition new_manager (defaultSearchMethod : option LoaderSearchMethod) : Manager :=
  {| _queue := []; _cache := ∅; _immediate := None;
     _defaultLoaderSearchMethod := default ANY_POSITION defaultSearchMethod;
     immediates := []; next_immediate := 0 |}.

Definition processQueryMeta
    (info : Info) (where_ : list WhereArgument) (m : Manager) : QueryMeta * Manager :=
  let fields := graphqlFields info in
  let key := md5_hex (JSON_stringify where_ fields) in
  if bool_decide (is_Some (_cache m !! key)) then
    ({| meta_fields := fields; meta_key := ""; meta_item := _cache m !! key;
        meta_found := true |}, m)
  else
    let m' :=
      match _immediate m with
      | Some h => clearImmediate h m
      | None => m
      end in
    ({| meta_fields := fields; meta_key := key; meta_item := None;
        meta_found := false |}, m').

Definition _setImmediate (m : Manager) : Manager :=
  let '(h, m') := setImmediate m in
  {| _queue := _queue m'; _cache := _cache m'; _immediate := Some h;
     _defaultLoaderSearchMethod := _defaultLoaderSearchMethod m';
     immediates := immediates m'; next_immediate := next_immediate m' |}.

Definition addQueueItem (item : QueueItem) (m : Manager) : Manager :=
  _setImmediate (with_queue (_queue m ++ [item]) m).

Definition addCacheItem (k : string) (value : Promise) (m : Manager) : Manager :=
  with_cache (<[k := value]> (_cache m)) m.

(** *** The condition builder *)

(** [Array.prototype.shift]: the first element, if any, and the array as
    it is left. *)
Definition shift {A} (l : list A) : option A * list A := (head l, tail l).

Definition _breakDownWhereExpression
    (where_ : ChainableWhereExpression) : WhereArgument * option ObjectLiteral :=
  match where_ with
  | IsLoaderWhere asExpression =>
      (ArgString (condition asExpression), params asExpression)
  | IsBrackets b => (ArgBrackets b, None)
  end.

(** The second component is the [conditions] array after the call: the
    method mutates the array it is handed. *)
Definition _addAndWhereConditions
    (qb : SelectQueryBuilder) (conditions : list ChainableWhereExpression)
    : SelectQueryBuilder * list ChainableWhereExpression :=
  let '(initialWhere, conditions) := shift conditions in
  match initialWhere with
  | None => (qb, conditions)
  | Some initialWhere =>
      let '(w, p) := _breakDownWhereExpression initialWhere in
      let qb := qb_where w p qb in
      (foldl (λ qb condition,
                let '(w, p) := _breakDownWhereExpression condition in
                qb_andWhere w p qb) qb conditions,
       conditions)
  end.

Definition _addOrWhereConditions
    (qb : SelectQueryBuilder) (conditions : list ChainableWhereExpression)
    : SelectQueryBuilder :=
  foldl (λ qb condition,
           let '(w, p) := _breakDownWhereExpression condition in
           qb_orWhere w p qb) qb conditions.

(** [searchMethod || this._defaultLoaderSearchMethod] *)
Definition method_or_default
    (searchMethod : option LoaderSearchMethod) (m : Manager) : LoaderSearchMethod :=
  match searchMethod with
  | Some method => if truthy method then method else _defaultLoaderSearchMethod m
  | None => _defaultLoaderSearchMethod m
  end.

(** [{ query, params }] *)
Record FormattedSearch := {
  query : string;
  query_params : ObjectLiteral;
}.

Definition _formatSearchConditions
    (m : Manager) (conditions : list SearchOptions) (alias : string)
    : list FormattedSearch :=
  map (λ c,
         let method := method_or_default (searchMethod c) m in
         let likeQueryStrings :=
           formatSearchColumns (searchColumns c) alias (caseSensitive c) in
         let searchTextParam := getSearchMethodMapping method (searchText c) in
         {| query := "(" +:+ String.concat " OR " likeQueryStrings +:+ ")";
            query_params := {[ "searchText" := searchTextParam ]} |})
      conditions.

Definition _addSearchConditions
    (m : Manager) (qb : SelectQueryBuilder) (alias : string)
    (searchConditions : list SearchOptions) : SelectQueryBuilder :=
  foldl (λ qb f, qb_andWhere (ArgString (query f)) (Some (query_params f)) qb)
        qb (_formatSearchConditions m searchConditions alias).

(** *** Resolving one request *)

Definition entity_name (e : EntityRef) : string :=
  match e with
  | EntityByName name => name
  | EntityClass name => name
  end.

(** [getRepository(name).createQueryBuilder(name).select([])] *)
Definition createTypeORMQueryBuilder (name : string) : SelectQueryBuilder :=
  {| qb_alias := name; qb_calls := [Select []] |}.

Definition with_andWhere
    (conditions : list ChainableWhereExpression) (item : QueueItem) : QueueItem :=
  {| many := many item; key := key item; fields := fields item;
     predicates :=
       {| andWhere := conditions;
          orWhere := orWhere (predicates item);
          search := search (predicates item);
          order := order (predicates item);
          selectFields := selectFields (predicates item) |};
     entity := entity item |}.

(** What the synchronous part of [_resolveQueueItem] leaves behind: the
    request as mutated, the query it built, and how the promise returned
    by [getMany()] / [getOne()] will settle. *)
Record Started := {
  started_item : QueueItem;
  started_query : SelectQueryBuilder;
  started_promise : Settlement;
}.

Definition _resolveQueueItem (m : Manager) (item : QueueItem) : Started :=
  let name := entity_name (entity item) in
  let queryBuilder := createTypeORMQueryBuilder name in
  let queryBuilder := createQuery name (fields item) queryBuilder name in
  let '(queryBuilder, conditions) :=
    _addAndWhereConditions queryBuilder (andWhere (predicates item)) in
  let item := with_andWhere conditions item in
  let queryBuilder := _addOrWhereConditions queryBuilder (orWhere (predicates item)) in
  let queryBuilder :=
    _addSearchConditions m queryBuilder name (search (predicates item)) in
  let promise := if many item then getMany queryBuilder else getOne queryBuilder in
  {| started_item := item; started_query := queryBuilder;
     started_promise := promise |}.

(** *** The flush *)

(** [Array.prototype.splice(start, deleteCount)]: the elements removed and
    the array as it is left. *)
Definition splice {A} (start deleteCount : nat) (l : list A) : list A * list A :=
  (take deleteCount (drop start l),
   take start l ++ drop (start + deleteCount) l).

(** What [this._connection.transaction(callback)] does with the callback
    and with the promise it returns; TypeORM decides, not the manager.  The
    callback itself never throws: it maps an async function over the batch
    and awaits nothing.
    - [TxResolves]: the callback is called, the promise is fulfilled;
    - [TxRejectsBeforeCallback e]: the promise is rejected with [e] and the
      callback was never called (the transaction could not be started);
    - [TxRejectsAfterCallback e]: the callback is called and has started the
      queries, then the promise is rejected with [e] (the commit failed, the
      connection was lost). *)
Inductive TransactionOutcome :=
| TxResolves
| TxRejectsBeforeCallback (e : ErrorValue)
| TxRejectsAfterCallback (e : ErrorValue).

Definition callback_called (tx : TransactionOutcome) : bool :=
  match tx with
  | TxResolves | TxRejectsAfterCallback _ => true
  | TxRejectsBeforeCallback _ => false
  end.

Definition rejection (tx : TransactionOutcome) : option ErrorValue :=
  match tx with
  | TxResolves => None
  | TxRejectsBeforeCallback e | TxRejectsAfterCallback e => Some e
  end.

(** One run of [_processQueue]: the array [queue] it captured, what the
    transaction did, and [queue.map(this._resolveQueueItem(entityManager))]
    when the callback was called. *)
Record Flush := {
  batch : list QueueItem;
  transaction : TransactionOutcome;
  started : list Started;
}.

(** The synchronous part of [_processQueue]. *)
Definition _processQueue (tx : TransactionOutcome) (m : Manager) : Flush * Manager :=
  let '(queue, rest) := splice 0 (length (_queue m)) (_queue m) in
  let m := with_queue rest m in
  ({| batch := queue; transaction := tx;
      started := if callback_called tx then map (_resolveQueueItem m) queue else [] |},
   m).

(** Node runs the callback of the first scheduled immediate. *)
Definition run_immediate (tx : TransactionOutcome) (m : Manager)
    : option (Flush * Manager) :=
  match immediates m with
  | [] => None
  | _ :: rest =>
      Some (_processQueue tx
              {| _queue := _queue m; _cache := _cache m;
                 _immediate := _immediate m;
                 _defaultLoaderSearchMethod := _defaultLoaderSearchMethod m;
                 immediates := rest; next_immediate := next_immediate m |})
  end.

(** A call of a stored callback of the request at position [i] of the
    batch: [item.resolve(v)] or [item.reject(e)]. *)
Inductive Invocation :=
| Resolve (i : nat) (v : Value)
| Reject (i : nat) (e : ErrorValue).

Definition request_of (inv : Invocation) : nat :=
  match inv with
  | Resolve i _ | Reject i _ => i
  end.

(** What a flush leaves to run later, each as one job of the event loop:
    - [Then i]: [promise.then(item.resolve, item.reject)] of request [i];
    - [Finally i]: [.finally(() => this._cache.delete(item.key))] of request [i];
    - [Catch]: the catch block of [_processQueue].
    The event loop picks the order; the statements below hold for every
    order of the continuations a flush left pending. *)
Inductive Continuation :=
| Then (i : nat)
| Finally (i : nat)
| Catch.

Definition pending (fl : Flush) : list Continuation :=
  (if callback_called (transaction fl)
   then flat_map (λ i, [Then i; Finally i]) (seq 0 (length (batch fl)))
   else []) ++
  (if rejection (transaction fl) is Some _ then [Catch] else []).

(** The state the continuations act on: the manager and the trace of
    callback invocations so far. *)
Definition cache_delete (k : string) (st : Manager * list Invocation)
    : Manager * list Invocation :=
  (with_cache (delete k (_cache st.1)) st.1, st.2).

Definition invoke (inv : Invocation) (st : Manager * list Invocation)
    : Manager * list Invocation :=
  (st.1, st.2 ++ [inv]).

Definition run_then (fl : Flush) (i : nat) (st : Manager * list Invocation)
    : Manager * list Invocation :=
  match started fl !! i with
  | Some s =>
      match started_promise s with
      | Fulfilled v => invoke (Resolve i v) st
      | RejectedWith e => invoke (Reject i e) st
      end
  | None => st
  end.

Definition run_finally (fl : Flush) (i : nat) (st : Manager * list Invocation)
    : Manager * list Invocation :=
  match started fl !! i with
  | Some s => cache_delete (key (started_item s)) st
  | None => st
  end.

(** [queue.forEach(q => { q.reject(e); this._cache.delete(q.key); })] *)
Definition run_catch (fl : Flush) (st : Manager * list Invocation)
    : Manager * list Invocation :=
  match rejection (transaction fl) with
  | Some e =>
      foldl (λ st iq, cache_delete (key iq.2) (invoke (Reject iq.1 e) st))
            st (imap pair (batch fl))
  | None => st
  end.

Definition run_continuation (fl : Flush) (st : Manager * list Invocation)
    (c : Continuation) : Manager * list Invocation :=
  match c with
  | Then i => run_then fl i st
  | Finally i => run_finally fl i st
  | Catch => run_catch fl st
  end.

(** The continuations in the order the event loop happens to run them. *)
Definition run (fl : Flush) (schedule : list Continuation)
    (st : Manager * list Invocation) : Manager * list Invocation :=
  foldl (run_continuation fl) st schedule.

(** The invocations that concern the request at position [i]. *)
Definition invocations_of (i : nat) (trace : list Invocation) : list Invocation :=
  filter (λ inv, request_of inv = i) trace.

(** *** Vocabulary of the statements *)

(** The call a condition becomes when handed to [method]. *)
Definition applied
    (method : WhereArgument → option ObjectLiteral → QBCall)
    (c : ChainableWhereExpression) : QBCall :=
  method (_breakDownWhereExpression c).1 (_breakDownWhereExpression c).2.

(** What a condition is expected to reach the query builder as, when it is
    handed to [method]: an expression of the loader as its condition string
    with its params, a [Brackets] as itself and without params. *)
Definition call_of
    (method : WhereArgument → option ObjectLiteral → QBCall)
    (c : ChainableWhereExpression) : QBCall :=
  match c with
  | IsLoaderWhere {| condition := text; params := named |} =>
      method (ArgString text) named
  | IsBrackets b => method (ArgBrackets b) None
  end.

(** The clause of one search group and the text bound to it. *)
Definition search_clause (alias : string) (c : SearchOptions) : string :=
  "(" +:+
  String.concat " OR " (formatSearchColumns (searchColumns c) alias (caseSensitive c))
  +:+ ")".

Definition search_text_param (m : Manager) (c : SearchOptions) : string :=
  getSearchMethodMapping (method_or_default (searchMethod c) m) (searchText c).

(** The invocation made when the query of a started request settles. *)
Definition own_call (i : nat) (s : Started) : Invocation :=
  match started_promise s with
  | Fulfilled v => Resolve i v
  | RejectedWith e => Reject i e
  end.

(** The invocations a continuation makes. *)
Definition calls (fl : Flush) (c : Continuation) : list Invocation :=
  match c with
  | Then i =>
      match started fl !! i with
      | Some s => [own_call i s]
      | None => []
      end
  | Finally _ => []
  | Catch =>
      match rejection (transaction fl) with
      | Some e => (λ i, Reject i e) <$> seq 0 (length (batch fl))
      | None => []
      end
  end.

(** The only flush that can be scheduled is the one whose handle the
    manager remembers in [_immediate]. *)
Definition scheduled_is_remembered (m : Manager) : Prop :=
  ∀ h, h ∈ immediates m → _immediate m = Some h.

(** A request as a caller presents it: the info and where list that
    [processQueryMeta] fingerprints, and the item it enqueues on a miss. *)
Definition Request : Type := Info * list WhereArgument * QueueItem.

Definition fingerprint (r : Request) : string :=
  md5_hex (JSON_stringify r.1.2 (graphqlFields r.1.1)).

(** One synchronous enqueue as the two public methods are used together:
    the lookup first, then [addQueueItem]. *)
Definition lookup_then_enqueue (m : Manager) (r : Request) : Manager :=
  addQueueItem r.2 (processQueryMeta r.1.1 r.1.2 m).2.

Definition burst (requests : list Request) (m : Manager) : Manager :=
  foldl lookup_then_enqueue m requests.

(** The claim of C5 for one request and one schedule: a single invocation. *)
Definition one_callback_once
    (tx : TransactionOutcome) (m : Manager) (schedule : list Continuation)
    (i : nat) : Prop :=
  ∃ inv,
    invocations_of i
      (run (_processQueue tx m).1 schedule ((_processQueue tx m).2, [])).2 = [inv].

(** Two managers that differ at most in their cache. *)
Definition only_cache_differs (m m' : Manager) : Prop :=
  _queue m' = _queue m ∧
  _immediate m' = _immediate m ∧
  _defaultLoaderSearchMethod m' = _defaultLoaderSearchMethod m ∧
  immediates m' = immediates m ∧
  next_immediate m' = next_immediate m.

(** The calls the AND conditions of a request become. *)
Definition and_calls (conditions : list ChainableWhereExpression) : list QBCall :=
  match conditions with
  | [] => []
  | first :: rest => applied Where first :: map (applied AndWhere) rest
  end.

(** The call one search group becomes. *)
Definition search_call (m : Manager) (alias : string) (c : SearchOptions) : QBCall :=
  AndWhere (ArgString (search_clause alias c))
           (Some {[ "searchText" := search_text_param m c ]}).

(** The managers a fresh one can become when the public methods are used as
    the comment in [processQueryMeta] intends ("cancel any scheduled
    immediates so we can add more items to the queue"): [addQueueItem]
    follows a lookup that missed.  Lookups, [addCacheItem], the scheduled
    flush running and its continuations running may come in any order. *)
Inductive reachable : Manager → Prop :=
| reach_new (defaultSearchMethod : option LoaderSearchMethod) :
    reachable (new_manager defaultSearchMethod)
| reach_lookup (info : Info) (where_ : list WhereArgument) (m : Manager) :
    reachable m → reachable (processQueryMeta info where_ m).2
| reach_enqueue (info : Info) (where_ : list WhereArgument) (item : QueueItem)
    (m : Manager) :
    reachable m →
    meta_found (processQueryMeta info where_ m).1 = false →
    reachable (addQueueItem item (processQueryMeta info where_ m).2)
| reach_cache (k : string) (p : Promise) (m : Manager) :
    reachable m → reachable (addCacheItem k p m)
| reach_flush (tx : TransactionOutcome) (m m' : Manager) (fl : Flush) :
    reachable m → run_immediate tx m = Some (fl, m') → reachable m'
| reach_continue (fl : Flush) (schedule : list Continuation)
    (trace : list Invocation) (m : Manager) :
    reachable m → reachable (run fl schedule (m, trace)).1.

End manager.

(** ** A sample set of collaborators, to evaluate the model on *)

(** A numeric enum declared without initialisers: its members are numbered
    from [0] in declaration order. *)
Module NumericEnum.
Definition ANY_POSITION : LoaderSearchMethod := EnumNumber 0.
Definition STARTS_WITH : LoaderSearchMethod := EnumNumber 1.
Definition ENDS_WITH : LoaderSearchMethod := EnumNumber 2.
End NumericEnum.

Module Sample.

Definition stringify_where (w : WhereArgument) : string :=
  match w with
  | ArgString s => s
  | ArgBrackets _ => "{}"
  end.

Definition like (alias : string) (c : SearchColumn) : string :=
  match c with
  | Column name => alias +:+ "." +:+ name +:+ " LIKE :searchText"
  | JoinedColumns names =>
      String.concat " || ' ' || " (map (λ n, alias +:+ "." +:+ n) names)
      +:+ " LIKE :searchText"
  end.

Definition wildcards (method : LoaderSearchMethod) (text : string) : string :=
  match method with
  | EnumNumber 1 => text +:+ "%"
  | EnumNumber 2 => "%" +:+ text
  | _ => "%" +:+ text +:+ "%"
  end.

Definition database (qb : SelectQueryBuilder) : Settlement :=
  if bool_decide (qb_alias qb = "Missing")
  then RejectedWith "no such table"
  else Fulfilled (qb_alias qb).

#[export] Instance collaborators : Collaborators := {|
  Info := string;
  graphqlFields := λ info, Some (Field info NoFields None NoFields);
  JSON_stringify := λ where_ fields,
    String.concat "," (map stringify_where where_) +:+ "|" +:+
    match fields with
    | Some (Field name _ _ _) => name
    | _ => "null"
    end;
  md5_hex := λ s, "md5:" +:+ s;
  ANY_POSITION := NumericEnum.ANY_POSITION;
  createQuery := λ name fields qb alias, qb_call (OtherCall "createQuery") qb;
  formatSearchColumns := λ cols alias _, map (like alias) cols;
  getSearchMethodMapping := wildcards;
  getMany := database;
  getOne := database;
|}.

Definition no_predicates : QueryPredicates :=
  {| andWhere := []; orWhere := []; search := []; order := []; selectFields := [] |}.

Definition request (name k : string) : QueueItem :=
  {| many := true; key := k; fields := None; predicates := no_predicates;
     entity := EntityByName name |}.

Definition adult : ChainableWhereExpression :=
  IsLoaderWhere {| condition := "user.age > :age"; params := Some {[ "age" := "18" ]} |}.
Definition composite : ChainableWhereExpression := IsBrackets (mkBrackets 1).
Definition active : ChainableWhereExpression :=
  IsLoaderWhere {| condition := "user.active"; params := None |}.
Definition admin : ChainableWhereExpression :=
  IsLoaderWhere {| condition := "user.admin"; params := None |}.

Definition by_email : SearchOptions :=
  {| searchColumns := [Column "email"]; searchText := "jo";
     searchMethod := Some NumericEnum.STARTS_WITH; caseSensitive := Some true |}.
Definition by_name : SearchOptions :=
  {| searchColumns := [Column "nick"; JoinedColumns ["firstName"; "lastName"]];
     searchText := "do"; searchMethod := None; caseSensitive := None |}.

(** A single-row request with three AND conditions, one OR condition and
    two search groups. *)
Definition search_users : QueueItem :=
  {| many := false; key := "k9"; fields := None;
     predicates :=
       {| andWhere := [adult; composite; active]; orWhere := [admin];
          search := [by_email; by_name]; order := []; selectFields := [] |};
     entity := EntityClass "User" |}.

Definition user : QueueItem := request "User" "k1".
Definition missing : QueueItem := request "Missing" "k2".

(** Two requests enqueued, both with their promise in the cache. *)
Definition two_queued : Manager :=
  addCacheItem "k2" 12
    (addQueueItem missing
       (addCacheItem "k1" 11
          (addQueueItem user (new_manager None)))).

(** A third entry, cached for another request, next to those of the batch. *)
Definition two_queued_and_another : Manager := addCacheItem "k7" 17 two_queued.

(** The manager after the flush scheduled for one enqueue has run. *)
Definition after_flush : Manager :=
  default (new_manager None)
    (snd <$> run_immediate TxResolves (addQueueItem user (new_manager None))).

End Sample.

(** ** Fingerprint lookup *)

Section lookup.
Context `{Collaborators}.

(** C1.  When the fingerprint computed by [processQueryMeta] (md5 of the
    JSON encoding of the where list and the parsed field tree) is a key of
    the cache holding promise [p], the returned meta has [found = true] and
    its [item] is that very promise; the manager is returned as it was, so
    nothing is queued and no flush is touched. *)
Theorem processQueryMeta_cache_hit
    (info : Info) (where_ : list WhereArgument) (m : Manager) (p : Promise) :
  _cache m !! md5_hex (JSON_stringify where_ (graphqlFields info)) = Some p →
  processQueryMeta info where_ m =
    ({| meta_key := ""; meta_fields := graphqlFields info;
        meta_found := true; meta_item := Some p |}, m).
Proof.
  intros Hhit. unfold processQueryMeta.
  rewrite bool_decide_eq_true_2 by (rewrite Hhit; eauto).
  by rewrite Hhit.
Qed.

Lemma processQueryMeta_hit_value
    (info : Info) (where_ : list WhereArgument) (m : Manager) (p : Promise) :
  _cache m !! md5_hex (JSON_stringify where_ (graphqlFields info)) = Some p →
  processQueryMeta info where_ m =
    ({| meta_key := ""; meta_fields := graphqlFields info;
        meta_found := true; meta_item := Some p |}, m).
Proof.
  intros Hhit. unfold processQueryMeta.
  rewrite bool_decide_eq_true_2 by (rewrite Hhit; eauto).
  by rewrite Hhit.
Qed.

Lemma processQueryMeta_miss
    (info : Info) (where_ : list WhereArgument) (m : Manager) :
  meta_found (processQueryMeta info where_ m).1 = false →
  (processQueryMeta info where_ m).2 =
    match _immediate m with
    | Some h => clearImmediate h m
    | None => m
    end.
Proof.
  unfold processQueryMeta. case_bool_decide; simpl; [discriminate | done].
Qed.

End lookup.

(** ** Enqueueing and the scheduled flush *)

Section enqueue.
Context `{Collaborators}.

Lemma new_manager_remembered (defaultSearchMethod : option LoaderSearchMethod) :
  scheduled_is_remembered (new_manager defaultSearchMethod).
Proof. intros h Hh. by apply elem_of_nil in Hh. Qed.

Lemma addCacheItem_remembered (k : string) (p : Promise) (m : Manager) :
  scheduled_is_remembered m → scheduled_is_remembered (addCacheItem k p m).
Proof. done. Qed.

Lemma addQueueItem_spec (item : QueueItem) (m : Manager) :
  _queue (addQueueItem item m) = _queue m ++ [item] ∧
  _cache (addQueueItem item m) = _cache m ∧
  immediates (addQueueItem item m) = immediates m ++ [next_immediate m] ∧
  _immediate (addQueueItem item m) = Some (next_immediate m) ∧
  next_immediate (addQueueItem item m) = S (next_immediate m).
Proof. done. Qed.

Lemma clearImmediate_remembered (h : Immediate) (m : Manager) :
  scheduled_is_remembered m → _immediate m = Some h →
  immediates (clearImmediate h m) = [].
Proof.
  intros Hrem Hh. simpl.
  assert (Forall (λ h', h' = h) (immediates m)) as Hall.
  { apply Forall_forall. intros h' Hin. apply Hrem in Hin. congruence. }
  induction Hall as [|h' l -> _ IH]; [done|].
  by rewrite filter_cons_False by (intros Hne; by apply Hne).
Qed.

Lemma splice_all {A} (l : list A) : splice 0 (length l) l = (l, []).
Proof.
  unfold splice. rewrite drop_0, take_0. simpl.
  by rewrite take_ge, drop_ge by lia.
Qed.

Lemma processQueue_unfold (tx : TransactionOutcome) (m : Manager) :
  _processQueue tx m =
    ({| batch := _queue m; transaction := tx;
        started := if callback_called tx
                   then map (_resolveQueueItem (with_queue [] m)) (_queue m)
                   else [] |},
     with_queue [] m).
Proof. unfold _processQueue. by rewrite splice_all. Qed.

Lemma run_immediate_remembered (tx : TransactionOutcome) (m m' : Manager) (fl : Flush) :
  scheduled_is_remembered m → run_immediate tx m = Some (fl, m') →
  scheduled_is_remembered m'.
Proof.
  unfold run_immediate. intros Hrem Hrun.
  destruct (immediates m) as [|h0 rest] eqn:Hm; [done|].
  rewrite processQueue_unfold in Hrun. injection Hrun as _ <-.
  intros h Hh. apply Hrem. rewrite Hm. by apply elem_of_cons; right.
Qed.

Lemma lookup_then_enqueue_miss (m : Manager) (r : Request) :
  scheduled_is_remembered m →
  _cache m !! fingerprint r = None →
  let m' := lookup_then_enqueue m r in
  _queue m' = _queue m ++ [r.2] ∧
  _cache m' = _cache m ∧
  immediates m' = [next_immediate m] ∧
  _immediate m' = Some (next_immediate m).
Proof.
  intros Hrem Hmiss m'. subst m'. unfold lookup_then_enqueue.
  rewrite processQueryMeta_miss; last first.
  { unfold processQueryMeta. fold (fingerprint r).
    rewrite bool_decide_eq_false_2; [done|]. rewrite Hmiss. by intros [? ?]. }
  destruct (_immediate m) as [h|] eqn:Hh.
  - pose proof (clearImmediate_remembered h m Hrem Hh) as Hclear.
    destruct (addQueueItem_spec r.2 (clearImmediate h m)) as (Hq & Hc & Hi & Hr & _).
    rewrite Hq, Hc, Hi, Hr, Hclear. done.
  - assert (immediates m = []) as Hnone.
    { destruct (immediates m) as [|h l] eqn:Hl; [done|].
      specialize (Hrem h). rewrite Hl in Hrem.
      specialize (Hrem (list_elem_of_here _ _)). congruence. }
    destruct (addQueueItem_spec r.2 m) as (Hq & Hc & Hi & Hr & _).
    rewrite Hq, Hc, Hi, Hr, Hnone. done.
Qed.

Lemma burst_spec (requests : list Request) (m : Manager) :
  scheduled_is_remembered m →
  Forall (λ r, _cache m !! fingerprint r = None) requests →
  _queue (burst requests m) = _queue m ++ requests.*2 ∧
  _cache (burst requests m) = _cache m ∧
  scheduled_is_remembered (burst requests m) ∧
  (requests ≠ [] →
   ∃ h, immediates (burst requests m) = [h] ∧ _immediate (burst requests m) = Some h).
Proof.
  revert m. induction requests as [|r rs IH]; intros m Hrem Hall.
  { simpl. by rewrite app_nil_r. }
  apply Forall_cons in Hall as [Hr Hrs].
  destruct (lookup_then_enqueue_miss m r Hrem Hr) as (Hq & Hc & Hi & Him).
  assert (scheduled_is_remembered (lookup_then_enqueue m r)) as Hrem'.
  { intros h. rewrite Hi, Him. by intros ->%list_elem_of_singleton. }
  destruct (IH (lookup_then_enqueue m r) Hrem') as (Hq' & Hc' & Hrem'' & Hone).
  { by rewrite Hc. }
  change (burst (r :: rs) m) with (burst rs (lookup_then_enqueue m r)).
  split_and!.
  - rewrite Hq', Hq. simpl. by rewrite <-app_assoc.
  - by rewrite Hc', Hc.
  - done.
  - intros _. destruct rs as [|r' rs'].
    + simpl. eauto.
    + by apply Hone.
Qed.

End enqueue.

(** ** The condition builder *)

Section conditions.
Context `{Collaborators}.

Lemma foldl_qb_call {A} (f : A → QBCall)
    (step : SelectQueryBuilder → A → SelectQueryBuilder)
    (l : list A) (qb : SelectQueryBuilder) :
  (∀ qb x, step qb x = qb_call (f x) qb) →
  foldl step qb l =
    {| qb_alias := qb_alias qb; qb_calls := qb_calls qb ++ map f l |}.
Proof.
  intros Hstep. revert qb. induction l as [|x l IH]; intros qb; simpl.
  - rewrite app_nil_r. by destruct qb.
  - rewrite IH, Hstep. simpl. by rewrite <-app_assoc.
Qed.

Lemma addAndWhereConditions_cons qb first rest :
  _addAndWhereConditions qb (first :: rest) =
    ({| qb_alias := qb_alias qb;
        qb_calls := qb_calls qb ++ applied Where first :: map (applied AndWhere) rest |},
     rest).
Proof.
  unfold _addAndWhereConditions, shift.
  cbn [head tail].
  destruct (_breakDownWhereExpression first) as [w p] eqn:Hfirst.
  replace (applied Where first) with (Where w p)
    by (unfold applied; by rewrite Hfirst).
  rewrite (foldl_qb_call (applied AndWhere)).
  - simpl. by rewrite <-app_assoc.
  - intros qb' c. unfold applied. by destruct (_breakDownWhereExpression c).
Qed.

Lemma addOrWhereConditions_calls qb conditions :
  _addOrWhereConditions qb conditions =
    {| qb_alias := qb_alias qb;
       qb_calls := qb_calls qb ++ map (applied OrWhere) conditions |}.
Proof.
  unfold _addOrWhereConditions. apply foldl_qb_call.
  intros qb' c. unfold applied. by destruct (_breakDownWhereExpression c).
Qed.

Lemma formatSearchConditions_map m conditions alias :
  _formatSearchConditions m conditions alias =
    map (λ c, {| query := search_clause alias c;
                 query_params := {[ "searchText" := search_text_param m c ]} |})
        conditions.
Proof. done. Qed.

Lemma addSearchConditions_calls m qb alias conditions :
  _addSearchConditions m qb alias conditions =
    {| qb_alias := qb_alias qb;
       qb_calls :=
         qb_calls qb ++
         map (λ c, AndWhere (ArgString (search_clause alias c))
                            (Some {[ "searchText" := search_text_param m c ]}))
             conditions |}.
Proof.
  unfold _addSearchConditions.
  rewrite (foldl_qb_call
             (λ f, AndWhere (ArgString (query f)) (Some (query_params f)))) by done.
  by rewrite formatSearchConditions_map, map_map.
Qed.

Lemma method_or_default_cases searchMethod m :
  method_or_default searchMethod m =
    match searchMethod with
    | Some method => if truthy method then method else _defaultLoaderSearchMethod m
    | None => _defaultLoaderSearchMethod m
    end.
Proof. done. Qed.

Lemma applied_call_of
    (method : WhereArgument → option ObjectLiteral → QBCall)
    (c : ChainableWhereExpression) :
  applied method c = call_of method c.
Proof. by destruct c as [[text named]|b]. Qed.

(** C6.  For a non-empty list of AND conditions the first one reaches the
    query builder through [where], the following ones through [andWhere] in
    list order, and every OR condition reaches it through [orWhere] in list
    order; each reaches it as what it is: an expression of the loader as
    its condition string with its params, a [Brackets] as itself.  With an
    empty AND list the query builder is returned as it was received. *)
Theorem conditions_applied_in_order
    (qb : SelectQueryBuilder) (first : ChainableWhereExpression)
    (rest ors : list ChainableWhereExpression) :
  qb_calls (_addAndWhereConditions qb (first :: rest)).1 =
    qb_calls qb ++ call_of Where first :: map (call_of AndWhere) rest ∧
  qb_calls (_addOrWhereConditions qb ors) =
    qb_calls qb ++ map (call_of OrWhere) ors ∧
  (_addAndWhereConditions qb []).1 = qb.
Proof.
  split_and!.
  - rewrite addAndWhereConditions_cons. cbn [fst qb_calls].
    rewrite applied_call_of. do 2 f_equal.
    apply map_ext. intros c. apply applied_call_of.
  - rewrite addOrWhereConditions_calls. cbn [qb_calls]. f_equal.
    apply map_ext. intros c. apply applied_call_of.
  - done.
Qed.

(** C7, at the input where the code departs from it.  A group whose search
    method has the run-time value [0] (the first member of a numeric enum)
    does not get its own wildcard placement: [searchMethod || default]
    takes [0] for absent, and the text is placed according to the manager's
    default method. *)
Theorem falsy_search_method_gets_default
    (m : Manager) (alias : string) (c : SearchOptions) :
  searchMethod c = Some (EnumNumber 0) →
  _formatSearchConditions m [c] alias =
    [{| query := search_clause alias c;
        query_params :=
          {[ "searchText" :=
               getSearchMethodMapping (_defaultLoaderSearchMethod m) (searchText c) ]} |}].
Proof.
  intros Hzero. rewrite formatSearchConditions_map. simpl.
  unfold search_text_param. by rewrite Hzero.
Qed.

(** C9.  [_addAndWhereConditions] leaves the array it was given without
    its first element, so after [_resolveQueueItem] has built the query the
    request's [predicates.andWhere] is its former tail; [orWhere] and
    [search] are as they were. *)
Theorem building_the_query_shifts_andWhere
    (m : Manager) (qb : SelectQueryBuilder)
    (conditions : list ChainableWhereExpression) (item : QueueItem) :
  (_addAndWhereConditions qb conditions).2 = tail conditions ∧
  andWhere (predicates (started_item (_resolveQueueItem m item))) =
    tail (andWhere (predicates item)) ∧
  orWhere (predicates (started_item (_resolveQueueItem m item))) =
    orWhere (predicates item) ∧
  search (predicates (started_item (_resolveQueueItem m item))) =
    search (predicates item).
Proof.
  assert (∀ qb' l, (_addAndWhereConditions qb' l).2 = tail l) as Hshift.
  { intros qb' [|c l]; [done|]. by rewrite addAndWhereConditions_cons. }
  split; [apply Hshift|].
  unfold _resolveQueueItem.
  destruct (_addAndWhereConditions _ (andWhere (predicates item)))
    as [qb' conditions'] eqn:Hand.
  simpl. split_and!; try done.
  by rewrite <-(Hshift (createQuery (entity_name (entity item)) (fields item)
    (createTypeORMQueryBuilder (entity_name (entity item)))
    (entity_name (entity item)))), Hand.
Qed.

(** C10.  Every search group binds its search text, with the wildcards of
    the method selected for it, under the one parameter name [searchText]:
    the parameter object of each formatted group has that one binding, the
    [andWhere] call made for the group passes the group's clause with that
    object, any two groups of a request carry the same name, and the
    parameter objects of all the groups taken together name nothing but
    [searchText]. *)
Theorem search_groups_share_searchText
    (m : Manager) (qb : SelectQueryBuilder) (alias : string)
    (conditions : list SearchOptions) :
  map query_params (_formatSearchConditions m conditions alias) =
    map (λ c,
           {[ "searchText" :=
                getSearchMethodMapping
                  match searchMethod c with
                  | Some method =>
                      if truthy method then method else _defaultLoaderSearchMethod m
                  | None => _defaultLoaderSearchMethod m
                  end
                  (searchText c) ]})
        conditions ∧
  qb_calls (_addSearchConditions m qb alias conditions) =
    qb_calls qb ++
    map (λ c,
           AndWhere
             (ArgString
                ("(" +:+
                 String.concat " OR "
                   (formatSearchColumns (searchColumns c) alias (caseSensitive c))
                 +:+ ")"))
             (Some
                {[ "searchText" :=
                     getSearchMethodMapping
                       match searchMethod c with
                       | Some method =>
                           if truthy method then method
                           else _defaultLoaderSearchMethod m
                       | None => _defaultLoaderSearchMethod m
                       end
                       (searchText c) ]}))
        conditions ∧
  (∀ f g, f ∈ _formatSearchConditions m conditions alias →
          g ∈ _formatSearchConditions m conditions alias →
          dom (query_params f) = {[ "searchText" ]} ∧
          dom (query_params f) = dom (query_params g)) ∧
  dom (⋃ (query_params <$> _formatSearchConditions m conditions alias))
    ⊆ ({[ "searchText" ]} : gset string).
Proof.
  assert (∀ f, f ∈ _formatSearchConditions m conditions alias →
               dom (query_params f) = {[ "searchText" ]}) as Hdom.
  { intros f. rewrite formatSearchConditions_map.
    intros (c & -> & _)%list_elem_of_fmap. simpl. apply dom_singleton_L. }
  split_and!.
  - rewrite formatSearchConditions_map, map_map. done.
  - rewrite addSearchConditions_calls. done.
  - intros f g Hf Hg. by rewrite (Hdom f Hf), (Hdom g Hg).
  - revert Hdom. generalize (_formatSearchConditions m conditions alias).
    intros l Hdom. induction l as [|f l IH]; simpl.
    + rewrite dom_empty_L. apply empty_subseteq.
    + rewrite dom_union_L, (Hdom f) by apply list_elem_of_here.
      apply union_least; [done|].
      apply IH. intros g Hg. apply Hdom. by apply elem_of_cons; right.
Qed.

End conditions.

(** ** The flush and its continuations *)

Section flush.
Context `{Collaborators}.

Implicit Types (fl : Flush) (st : Manager * list Invocation).
Implicit Types (schedule : list Continuation) (k : string).

Lemma resolveQueueItem_key (m : Manager) (q : QueueItem) :
  key (started_item (_resolveQueueItem m q)) = key q.
Proof.
  unfold _resolveQueueItem.
  by destruct (_addAndWhereConditions _ (andWhere (predicates q))).
Qed.

(** *** The catch block, one request after the other *)

Lemma reject_each_spec (e : ErrorValue) (l : list (nat * QueueItem)) st :
  let st' := foldl (λ st iq, cache_delete (key iq.2) (invoke (Reject iq.1 e) st)) st l in
  st'.2 = st.2 ++ map (λ iq, Reject iq.1 e) l ∧
  _queue st'.1 = _queue st.1 ∧
  (∀ k, _cache st.1 !! k = None → _cache st'.1 !! k = None) ∧
  (∀ iq, iq ∈ l → _cache st'.1 !! key iq.2 = None).
Proof.
  revert st. induction l as [|[i q] l IH]; intros st; simpl.
  { split_and!; [by rewrite app_nil_r | done | done |]. by intros ? ?%elem_of_nil. }
  destruct (IH (cache_delete (key q) (invoke (Reject i e) st)))
    as (Htrace & Hqueue & Hnone & Hdel).
  split_and!.
  - rewrite Htrace. simpl. by rewrite <-app_assoc.
  - by rewrite Hqueue.
  - intros k Hk. apply Hnone. simpl. rewrite lookup_delete. by case_decide.
  - intros iq [->|Hin]%elem_of_cons.
    + apply Hnone. simpl. apply lookup_delete_eq.
    + by apply Hdel.
Qed.

Lemma run_catch_spec fl st :
  (run_catch fl st).2 = st.2 ++ calls fl Catch ∧
  _queue (run_catch fl st).1 = _queue st.1 ∧
  (∀ k, _cache st.1 !! k = None → _cache (run_catch fl st).1 !! k = None) ∧
  (∀ i q, is_Some (rejection (transaction fl)) → batch fl !! i = Some q →
          _cache (run_catch fl st).1 !! key q = None).
Proof.
  unfold run_catch, calls.
  destruct (rejection (transaction fl)) as [e|].
  - destruct (reject_each_spec e (imap pair (batch fl)) st)
      as (Htrace & Hqueue & Hnone & Hdel).
    split_and!; [|done|done|].
    + rewrite Htrace. f_equal.
      change (map ?f ?l) with (f <$> l).
      by rewrite fmap_imap, <-imap_seq_0.
    + intros i q _ Hq. apply (Hdel (i, q)).
      apply elem_of_lookup_imap. eauto.
  - split_and!; [by rewrite app_nil_r | done | done |].
    by intros i q [? ?].
Qed.

Lemma run_continuation_spec fl st (c : Continuation) :
  (run_continuation fl st c).2 = st.2 ++ calls fl c ∧
  _queue (run_continuation fl st c).1 = _queue st.1 ∧
  (∀ k, _cache st.1 !! k = None → _cache (run_continuation fl st c).1 !! k = None).
Proof.
  destruct c as [i|i|]; simpl.
  - unfold run_then. destruct (started fl !! i) as [s|]; simpl.
    + unfold own_call. by destruct (started_promise s).
    + by rewrite app_nil_r.
  - unfold run_finally. rewrite app_nil_r.
    destruct (started fl !! i) as [s|]; simpl; [|done].
    split_and!; [done..|]. intros k Hk. rewrite lookup_delete. by case_decide.
  - destruct (run_catch_spec fl st) as (? & ? & ? & _). done.
Qed.

Lemma run_finally_deletes fl st (i : nat) (s : Started) :
  started fl !! i = Some s →
  _cache (run_finally fl i st).1 !! key (started_item s) = None.
Proof. intros Hs. unfold run_finally. rewrite Hs. apply lookup_delete_eq. Qed.

(** *** A whole schedule *)

Lemma run_spec fl schedule st :
  (run fl schedule st).2 = st.2 ++ flat_map (calls fl) schedule ∧
  _queue (run fl schedule st).1 = _queue st.1 ∧
  (∀ k, _cache st.1 !! k = None → _cache (run fl schedule st).1 !! k = None).
Proof.
  revert st. induction schedule as [|c schedule IH]; intros st; simpl.
  { by rewrite app_nil_r. }
  destruct (run_continuation_spec fl st c) as (Htrace & Hqueue & Hnone).
  destruct (IH (run_continuation fl st c)) as (Htrace' & Hqueue' & Hnone').
  unfold run in *. split_and!.
  - by rewrite Htrace', Htrace, <-app_assoc.
  - by rewrite Hqueue'.
  - eauto.
Qed.

(** A key that some continuation of the schedule deletes is absent at the
    end, wherever in the schedule that continuation runs. *)
Lemma run_deletes fl schedule st (c : Continuation) k :
  c ∈ schedule →
  (∀ st', _cache (run_continuation fl st' c).1 !! k = None) →
  _cache (run fl schedule st).1 !! k = None.
Proof.
  intros Hin Hdel. revert st.
  induction schedule as [|c' schedule IH]; intros st.
  { by apply elem_of_nil in Hin. }
  apply elem_of_cons in Hin as [<-|Hin].
  - apply (run_spec fl schedule (run_continuation fl st c)), Hdel.
  - by apply IH.
Qed.

(** *** Counting the invocations of one request *)

Lemma invocations_of_all (i : nat) (l : list Invocation) :
  Forall (λ inv, request_of inv = i) l → invocations_of i l = l.
Proof.
  unfold invocations_of. induction 1 as [|inv l Hinv _ IH]; [done|].
  by rewrite filter_cons_True, IH.
Qed.

Lemma invocations_of_none (i : nat) (l : list Invocation) :
  Forall (λ inv, request_of inv ≠ i) l → invocations_of i l = [].
Proof.
  unfold invocations_of. induction 1 as [|inv l Hinv _ IH]; [done|].
  by rewrite filter_cons_False.
Qed.

Lemma invocations_of_app (i : nat) (l1 l2 : list Invocation) :
  invocations_of i (l1 ++ l2) = invocations_of i l1 ++ invocations_of i l2.
Proof. apply filter_app. Qed.

Lemma invocations_of_seq (g : nat → list Invocation) (i start n : nat) :
  (∀ j, Forall (λ inv, request_of inv = j) (g j)) →
  invocations_of i (flat_map g (seq start n)) =
    if bool_decide (start ≤ i < start + n) then g i else [].
Proof.
  intros Hg. revert start. induction n as [|n IH]; intros start; simpl.
  { rewrite bool_decide_eq_false_2 by lia. done. }
  rewrite invocations_of_app, IH.
  destruct (decide (start = i)) as [->|Hne].
  - rewrite (invocations_of_all i (g i)) by done.
    rewrite bool_decide_eq_false_2, bool_decide_eq_true_2 by lia.
    by rewrite app_nil_r.
  - rewrite (invocations_of_none i (g start)).
    + simpl. rewrite (bool_decide_ext (S start ≤ i < S (start + n))
                                      (start ≤ i < start + S n)) by lia.
      done.
    + eapply Forall_impl; [apply Hg|]. simpl. congruence.
Qed.

Lemma calls_then_request fl (j : nat) :
  Forall (λ inv, request_of inv = j) (calls fl (Then j)).
Proof.
  simpl. destruct (started fl !! j) as [s|]; [|done].
  apply Forall_singleton. unfold own_call. by destruct (started_promise s).
Qed.

Lemma calls_thens fl (start n : nat) :
  flat_map (calls fl) (flat_map (λ i, [Then i; Finally i]) (seq start n)) =
  flat_map (λ i, calls fl (Then i)) (seq start n).
Proof.
  revert start. induction n as [|n IH]; intros start; [done|].
  cbn [seq flat_map]. rewrite flat_map_app, IH.
  cbn [flat_map calls]. by rewrite !app_nil_r.
Qed.

Lemma rejects_as_flat_map (e : ErrorValue) (l : list nat) :
  (λ i, Reject i e) <$> l = flat_map (λ i, [Reject i e]) l.
Proof. induction l as [|i l IH]; [done|]. by rewrite fmap_cons, IH. Qed.

(** The invocations that concern request [i], over everything the flush
    leaves pending. *)
Lemma invocations_of_pending fl (i : nat) :
  i < length (batch fl) →
  invocations_of i (flat_map (calls fl) (pending fl)) =
    (if callback_called (transaction fl) then calls fl (Then i) else []) ++
    (if rejection (transaction fl) is Some e then [Reject i e] else []).
Proof.
  intros Hi. unfold pending.
  rewrite flat_map_app, invocations_of_app. f_equal.
  - destruct (callback_called (transaction fl)); [|done].
    rewrite calls_thens.
    rewrite (invocations_of_seq (λ j, calls fl (Then j)))
      by apply calls_then_request.
    by rewrite bool_decide_eq_true_2 by lia.
  - destruct (rejection (transaction fl)) as [e|] eqn:He; [|done].
    cbn [flat_map calls]. rewrite He, app_nil_r, rejects_as_flat_map.
    rewrite (invocations_of_seq (λ j, [Reject j e])).
    + by rewrite bool_decide_eq_true_2 by lia.
    + intros j. by apply Forall_singleton.
Qed.

(** *** What [_processQueue] hands to the continuations *)

Lemma processQueue_started tx (m : Manager) (i : nat) (q : QueueItem) :
  callback_called tx = true →
  _queue m !! i = Some q →
  started (_processQueue tx m).1 !! i =
    Some (_resolveQueueItem (_processQueue tx m).2 q).
Proof.
  intros Hcalled Hq. rewrite processQueue_unfold. simpl. rewrite Hcalled.
  change (map ?f ?l) with (f <$> l). by rewrite list_lookup_fmap, Hq.
Qed.

Lemma enqueue_late (late : list QueueItem) (m : Manager) :
  _queue (foldl (λ m item, addQueueItem item m) m late) = _queue m ++ late.
Proof.
  revert m. induction late as [|item late IH]; intros m; simpl.
  - by rewrite app_nil_r.
  - rewrite IH. simpl. by rewrite <-app_assoc.
Qed.

Lemma finally_pending fl (i : nat) :
  callback_called (transaction fl) = true → i < length (batch fl) →
  Finally i ∈ pending fl.
Proof.
  intros Hcalled Hi. unfold pending. rewrite Hcalled.
  apply elem_of_app. left. apply list_elem_of_In, in_flat_map.
  exists i. split; [apply in_seq; lia | right; by left].
Qed.

Lemma catch_pending fl (e : ErrorValue) :
  rejection (transaction fl) = Some e → Catch ∈ pending fl.
Proof.
  intros He. unfold pending. rewrite He.
  apply elem_of_app. right. apply list_elem_of_here.
Qed.

(** C3.  [_processQueue] takes the whole queue at its start: the batch it
    captures is the queue as it stood, in order, and the live queue is
    empty; when the transaction calls back, the requests it starts are
    those of the batch.  Requests enqueued afterwards, while the flush is
    still running, make up the live queue on their own; no continuation of
    the running flush touches that queue, and the next [_processQueue]
    captures exactly them. *)
Theorem flush_drains_whole_queue
    (tx tx' : TransactionOutcome) (m : Manager) (late : list QueueItem)
    (schedule : list Continuation) (trace : list Invocation) :
  let fl := (_processQueue tx m).1 in
  let m' := (_processQueue tx m).2 in
  let m'' := foldl (λ m item, addQueueItem item m) m' late in
  batch fl = _queue m ∧
  _queue m' = [] ∧
  started fl =
    (if callback_called tx then map (_resolveQueueItem m') (_queue m) else []) ∧
  _queue m'' = late ∧
  _queue (run fl schedule (m'', trace)).1 = late ∧
  batch (_processQueue tx' m'').1 = late ∧
  _queue (_processQueue tx' m'').2 = [].
Proof.
  intros fl m' m''. subst fl m' m''.
  rewrite (processQueue_unfold tx m), (processQueue_unfold tx').
  cbn [fst snd batch started].
  assert (_queue (foldl (λ m item, addQueueItem item m) (with_queue [] m) late)
          = late) as Hlate by (by rewrite enqueue_late).
  split_and!; try done.
  match goal with
  | |- _queue (run ?fl _ ?st).1 = _ =>
      destruct (run_spec fl schedule st) as (_ & -> & _)
  end.
  done.
Qed.

(** C4.  When the transaction of a flush fails with [e], whatever the order
    in which the event loop runs what the flush left pending: the [reject]
    of every request of the batch is called with [e], and at the end the
    cache has no entry under the key of any request of the batch. *)
Theorem transaction_failure_rejects_batch
    (tx : TransactionOutcome) (e : ErrorValue) (m : Manager)
    (schedule : list Continuation) (trace : list Invocation)
    (i : nat) (q : QueueItem) :
  rejection tx = Some e →
  schedule ≡ₚ pending (_processQueue tx m).1 →
  _queue m !! i = Some q →
  Reject i e ∈ (run (_processQueue tx m).1 schedule ((_processQueue tx m).2, trace)).2 ∧
  _cache (run (_processQueue tx m).1 schedule ((_processQueue tx m).2, trace)).1
    !! key q = None.
Proof.
  intros He Hperm Hq.
  assert (transaction (_processQueue tx m).1 = tx) as Htx
    by (by rewrite processQueue_unfold).
  assert (batch (_processQueue tx m).1 = _queue m) as Hbatch
    by (by rewrite processQueue_unfold).
  assert (Catch ∈ schedule) as Hcatch.
  { rewrite Hperm. apply (catch_pending _ e). exact He. }
  split.
  - destruct (run_spec (_processQueue tx m).1 schedule ((_processQueue tx m).2, trace))
      as (-> & _ & _).
    apply elem_of_app. right. apply list_elem_of_In, in_flat_map.
    exists Catch. split; [by apply list_elem_of_In|].
    apply list_elem_of_In. unfold calls. rewrite Htx, He, Hbatch.
    apply list_elem_of_fmap. exists i. split; [done|].
    apply elem_of_seq. apply lookup_lt_Some in Hq. lia.
  - apply (run_deletes _ _ _ Catch); [done|].
    intros st'. cbn [run_continuation].
    destruct (run_catch_spec (_processQueue tx m).1 st') as (_ & _ & _ & Hdel).
    apply (Hdel i).
    + rewrite Htx, He. eauto.
    + by rewrite Hbatch.
Qed.

(** C5, as amended.  For the request at position [i] of a batch, whatever
    the order in which the event loop runs what the flush left pending:
    when the transaction succeeds, exactly one callback is called, once
    ([resolve] with the value if the request's query succeeds, [reject]
    with the error if it fails); when the transaction fails before calling
    back, only [reject] is called, once, with the transaction's error; when
    the transaction fails after calling back, [reject] is called with the
    transaction's error and, besides, the call belonging to the settlement
    of the request's own query is made: two calls. *)
Theorem callbacks_per_request
    (tx : TransactionOutcome) (m : Manager) (schedule : list Continuation)
    (i : nat) (q : QueueItem) :
  _queue m !! i = Some q →
  schedule ≡ₚ pending (_processQueue tx m).1 →
  let trace := (run (_processQueue tx m).1 schedule ((_processQueue tx m).2, [])).2 in
  let own := own_call i (_resolveQueueItem (_processQueue tx m).2 q) in
  match tx with
  | TxResolves => invocations_of i trace = [own]
  | TxRejectsBeforeCallback e => invocations_of i trace = [Reject i e]
  | TxRejectsAfterCallback e => invocations_of i trace ≡ₚ [own; Reject i e]
  end.
Proof.
  intros Hq Hperm trace own.
  assert (transaction (_processQueue tx m).1 = tx) as Htx
    by (by rewrite processQueue_unfold).
  assert (i < length (batch (_processQueue tx m).1)) as Hi.
  { rewrite processQueue_unfold. simpl. by apply lookup_lt_Some in Hq. }
  assert (invocations_of i trace ≡ₚ
          (if callback_called tx then [own] else []) ++
          (if rejection tx is Some e then [Reject i e] else [])) as Hcalls.
  { subst trace.
    destruct (run_spec (_processQueue tx m).1 schedule ((_processQueue tx m).2, []))
      as (-> & _ & _).
    cbn [snd]. rewrite app_nil_l.
    assert (invocations_of i (flat_map (calls (_processQueue tx m).1) schedule) ≡ₚ
            invocations_of i (flat_map (calls (_processQueue tx m).1)
                                       (pending (_processQueue tx m).1))) as ->
      by (unfold invocations_of; by rewrite Hperm).
    rewrite invocations_of_pending, Htx by done.
    destruct (callback_called tx) eqn:Hcalled; [|done].
    cbn [calls]. by rewrite (processQueue_started tx m i q). }
  destruct tx as [|e|e]; simpl in Hcalls.
  - by apply Permutation_singleton_r.
  - by apply Permutation_singleton_r.
  - done.
Qed.

(** C8.  In a flush whose transaction succeeds, the [finally] of a request
    deletes the cache entry under the request's key, in whatever state it
    runs and whether the request's query was fulfilled or rejected; so once
    every continuation has run, in whatever order, the cache has no entry
    under that key. *)
Theorem settled_request_leaves_cache
    (m : Manager) (schedule : list Continuation)
    (st : Manager * list Invocation) (trace : list Invocation)
    (i : nat) (q : QueueItem) :
  _queue m !! i = Some q →
  schedule ≡ₚ pending (_processQueue TxResolves m).1 →
  _cache (run_finally (_processQueue TxResolves m).1 i st).1 !! key q = None ∧
  _cache (run (_processQueue TxResolves m).1 schedule
              ((_processQueue TxResolves m).2, trace)).1 !! key q = None.
Proof.
  intros Hq Hperm.
  pose proof (processQueue_started TxResolves m i q eq_refl Hq) as Hstarted.
  pose proof (run_finally_deletes (_processQueue TxResolves m).1) as Hdel.
  rewrite <-(resolveQueueItem_key (_processQueue TxResolves m).2 q).
  split; [by apply Hdel|].
  apply (run_deletes _ _ _ (Finally i)).
  - rewrite Hperm. apply finally_pending.
    + by rewrite processQueue_unfold.
    + rewrite processQueue_unfold. simpl. by apply lookup_lt_Some in Hq.
  - intros st'. by apply Hdel.
Qed.

End flush.

(** ** Further properties: lookups and the cache *)

Section lookups.
Context `{Collaborators}.

Lemma filter_other_handles (h : Immediate) (l : list Immediate) :
  h ∉ l → filter (λ h', h' ≠ h) l = l.
Proof.
  induction l as [|h' l IH]; [done|].
  intros Hnot. apply not_elem_of_cons in Hnot as [Hne Hnot].
  by rewrite filter_cons_True, IH by done.
Qed.

Lemma list_elem_of_filter_handles (h h' : Immediate) (l : list Immediate) :
  h' ∈ filter (λ x, x ≠ h) l ↔ h' ≠ h ∧ h' ∈ l.
Proof. by rewrite list_elem_of_filter. Qed.

(** X1.  When the fingerprint is not a key of the cache, [processQueryMeta]
    returns [found = false] with the fingerprint as [key] and no [item]; of
    the manager it changes nothing but the set of scheduled flushes, from
    which exactly the remembered handle is removed: queue, cache and the
    remembered handle itself stay. *)
Theorem processQueryMeta_cache_miss
    (info : Info) (where_ : list WhereArgument) (m : Manager) :
  _cache m !! md5_hex (JSON_stringify where_ (graphqlFields info)) = None →
  (processQueryMeta info where_ m).1 =
    {| meta_key := md5_hex (JSON_stringify where_ (graphqlFields info));
       meta_fields := graphqlFields info; meta_found := false;
       meta_item := None |} ∧
  _queue (processQueryMeta info where_ m).2 = _queue m ∧
  _cache (processQueryMeta info where_ m).2 = _cache m ∧
  _immediate (processQueryMeta info where_ m).2 = _immediate m ∧
  next_immediate (processQueryMeta info where_ m).2 = next_immediate m ∧
  ∀ h, h ∈ immediates (processQueryMeta info where_ m).2 ↔
       h ∈ immediates m ∧ _immediate m ≠ Some h.
Proof.
  intros Hmiss. unfold processQueryMeta.
  rewrite bool_decide_eq_false_2 by (rewrite Hmiss; by intros [? ?]).
  cbn [fst snd]. destruct (_immediate m) as [h0|] eqn:Hh.
  - split_and!; try done. intros h. simpl.
    rewrite list_elem_of_filter_handles. split.
    + intros [Hne Hin]. split; [done|]. congruence.
    + intros [Hin Hne]. split; [|done]. congruence.
  - split_and!; try done. intros h. split; [by intros ?|by intros [? _]].
Qed.

(** X2.  A request whose lookup missed, then enqueued and cached under the
    key the lookup returned: a second lookup with the same info and where
    list is a hit that hands back the cached promise and leaves the manager
    as it is, so the queue still holds the one item.  The lookup sees only
    the info and the where list, whatever else the second request asks. *)
Theorem second_lookup_hits
    (info : Info) (where_ : list WhereArgument) (item : QueueItem)
    (p : Promise) (m : Manager) :
  _cache m !! md5_hex (JSON_stringify where_ (graphqlFields info)) = None →
  let m1 := (processQueryMeta info where_ m).2 in
  let k := meta_key (processQueryMeta info where_ m).1 in
  let m2 := addCacheItem k p (addQueueItem item m1) in
  processQueryMeta info where_ m2 =
    ({| meta_key := ""; meta_fields := graphqlFields info;
        meta_found := true; meta_item := Some p |}, m2) ∧
  _queue m2 = _queue m ++ [item].
Proof.
  intros Hmiss m1 k m2.
  destruct (processQueryMeta_cache_miss info where_ m Hmiss)
    as (Hmeta & Hqueue & _).
  assert (k = md5_hex (JSON_stringify where_ (graphqlFields info))) as Hk
    by (subst k; by rewrite Hmeta).
  split.
  - apply processQueryMeta_hit_value. subst m2. simpl. rewrite Hk.
    apply lookup_insert_eq.
  - subst m2 m1. simpl. by rewrite Hqueue.
Qed.

(** X3.  A lookup that misses while the remembered flush is no longer
    scheduled (it already ran, or none was ever scheduled) returns the
    manager exactly as it was: clearing a handle that is not scheduled
    cancels nothing. *)
Theorem lookup_after_flush_ran_changes_nothing
    (info : Info) (where_ : list WhereArgument) (m : Manager) :
  _cache m !! md5_hex (JSON_stringify where_ (graphqlFields info)) = None →
  (∀ h, _immediate m = Some h → h ∉ immediates m) →
  (processQueryMeta info where_ m).2 = m.
Proof.
  intros Hmiss Hstale. unfold processQueryMeta.
  rewrite bool_decide_eq_false_2 by (rewrite Hmiss; by intros [? ?]).
  cbn [snd]. destruct (_immediate m) as [h|] eqn:Hh; [|done].
  unfold clearImmediate. rewrite filter_other_handles by by apply Hstale.
  by destruct m.
Qed.

(** X13.  [addCacheItem] replaces whatever was cached under its key: the
    next lookup whose fingerprint is that key is a hit with the new promise.
    A lookup with another fingerprint is not affected: it returns the same
    meta, and does to the manager what it did without the new entry. *)
Theorem addCacheItem_and_lookups
    (info : Info) (where_ : list WhereArgument) (k : string) (p : Promise)
    (m : Manager) :
  (processQueryMeta info where_
     (addCacheItem (md5_hex (JSON_stringify where_ (graphqlFields info))) p m)).1 =
    {| meta_key := ""; meta_fields := graphqlFields info;
       meta_found := true; meta_item := Some p |} ∧
  (md5_hex (JSON_stringify where_ (graphqlFields info)) ≠ k →
   processQueryMeta info where_ (addCacheItem k p m) =
     ((processQueryMeta info where_ m).1,
      addCacheItem k p (processQueryMeta info where_ m).2)).
Proof.
  split.
  - rewrite (processQueryMeta_hit_value _ _ _ p); [done|].
    simpl. apply lookup_insert_eq.
  - intros Hne. unfold processQueryMeta. cbn [addCacheItem with_cache _cache].
    rewrite lookup_insert_ne by done.
    case_bool_decide; [done|].
    simpl. by destruct (_immediate m).
Qed.

End lookups.

(** ** Further properties: the query of a request *)

Section queries.
Context `{Collaborators}.

Lemma addAndWhereConditions_calls qb conditions :
  _addAndWhereConditions qb conditions =
    ({| qb_alias := qb_alias qb; qb_calls := qb_calls qb ++ and_calls conditions |},
     tail conditions).
Proof.
  destruct conditions as [|first rest].
  - simpl. rewrite app_nil_r. by destruct qb.
  - apply addAndWhereConditions_cons.
Qed.

(** X4.  A search group that names no method, or a method whose run-time
    value is truthy, has its text placed by [getSearchMethodMapping] under
    the group's method if it names one and under the manager's default
    otherwise; the default is the constructor's [defaultSearchMethod], or
    [ANY_POSITION] when the options give none. *)
Theorem search_method_selection
    (defaultSearchMethod : option LoaderSearchMethod) (alias : string)
    (c : SearchOptions) :
  (∀ method, searchMethod c = Some method → truthy method = true) →
  map query_params
      (_formatSearchConditions (new_manager defaultSearchMethod) [c] alias) =
    [{[ "searchText" :=
          getSearchMethodMapping
            (default (default ANY_POSITION defaultSearchMethod) (searchMethod c))
            (searchText c) ]}].
Proof.
  intros Htruthy. rewrite formatSearchConditions_map. simpl.
  unfold search_text_param, method_or_default.
  destruct (searchMethod c) as [method|]; [|done].
  by rewrite (Htruthy method eq_refl).
Qed.

(** X5.  A search group for which the formatter yields no LIKE expression
    (no search column) is not skipped: [andWhere] is still called, with the
    empty clause [()] and the [searchText] parameter. *)
Theorem search_group_without_columns
    (m : Manager) (qb : SelectQueryBuilder) (alias : string) (c : SearchOptions) :
  formatSearchColumns (searchColumns c) alias (caseSensitive c) = [] →
  qb_calls (_addSearchConditions m qb alias [c]) =
    qb_calls qb ++
    [AndWhere (ArgString "()") (Some {[ "searchText" := search_text_param m c ]})].
Proof.
  intros Hnone. rewrite addSearchConditions_calls. simpl.
  unfold search_clause. by rewrite Hnone.
Qed.

Lemma resolveQueueItem_calls (m : Manager) (item : QueueItem) :
  let name := entity_name (entity item) in
  let planned := createQuery name (fields item) (createTypeORMQueryBuilder name) name in
  started_query (_resolveQueueItem m item) =
    {| qb_alias := qb_alias planned;
       qb_calls :=
         qb_calls planned ++
         and_calls (andWhere (predicates item)) ++
         map (applied OrWhere) (orWhere (predicates item)) ++
         map (search_call m name) (search (predicates item)) |}.
Proof.
  intros name planned.
  unfold _resolveQueueItem. fold name. fold planned.
  rewrite addAndWhereConditions_calls. cbn [started_query].
  cbn [with_andWhere predicates orWhere search].
  rewrite addOrWhereConditions_calls, addSearchConditions_calls.
  cbn [qb_alias qb_calls]. by rewrite <-!app_assoc.
Qed.

(** X6.  The query [_resolveQueueItem] builds for a request.  Its name is
    the entity string, or the name of the entity class.  The builder is
    created with that name as alias and an empty [select], and handed to
    [createQuery] with the request's fields.  Then come the AND conditions
    ([where] for the first, [andWhere] for the others), then every OR
    condition through [orWhere], then one [andWhere] per search group with
    the group's clause and its [searchText] binding, each in list order and
    each condition as its string with its params or as the [Brackets] it
    is.  The promise is [getMany()] of that query for a many-request and
    [getOne()] of it otherwise. *)
Theorem resolveQueueItem_query (m : Manager) (item : QueueItem) :
  let name :=
    match entity item with
    | EntityByName name | EntityClass name => name
    end in
  let planned :=
    createQuery name (fields item) {| qb_alias := name; qb_calls := [Select []] |} name in
  let built :=
    {| qb_alias := qb_alias planned;
       qb_calls :=
         qb_calls planned ++
         match andWhere (predicates item) with
         | [] => []
         | first :: rest => call_of Where first :: map (call_of AndWhere) rest
         end ++
         map (call_of OrWhere) (orWhere (predicates item)) ++
         map (λ c,
                AndWhere
                  (ArgString
                     ("(" +:+
                      String.concat " OR "
                        (formatSearchColumns (searchColumns c) name (caseSensitive c))
                      +:+ ")"))
                  (Some
                     {[ "searchText" :=
                          getSearchMethodMapping
                            match searchMethod c with
                            | Some method =>
                                if truthy method then method
                                else _defaultLoaderSearchMethod m
                            | None => _defaultLoaderSearchMethod m
                            end
                            (searchText c) ]}))
             (search (predicates item)) |} in
  started_query (_resolveQueueItem m item) = built ∧
  started_promise (_resolveQueueItem m item) =
    (if many item then getMany built else getOne built).
Proof.
  intros name planned built.
  assert (name = entity_name (entity item)) as Hname
    by (subst name; by destruct (entity item)).
  assert (started_query (_resolveQueueItem m item) = built) as Hbuilt.
  { rewrite (resolveQueueItem_calls m item). subst built planned.
    rewrite <-Hname. unfold createTypeORMQueryBuilder. f_equal. f_equal.
    f_equal; [|f_equal].
    - destruct (andWhere (predicates item)) as [|first rest]; [done|].
      cbn [and_calls]. rewrite applied_call_of. f_equal.
      apply map_ext. intros c. apply applied_call_of.
    - apply map_ext. intros c. apply applied_call_of. }
  split; [done|].
  rewrite <-Hbuilt. unfold _resolveQueueItem.
  by destruct (_addAndWhereConditions _ (andWhere (predicates item))).
Qed.

(** X7.  Building the query of a request that has no AND condition leaves
    the request exactly as it was, and no [where] call is made for it: the
    OR conditions and the search groups follow [createQuery]'s calls
    directly. *)
Theorem resolveQueueItem_without_and_conditions (m : Manager) (item : QueueItem) :
  andWhere (predicates item) = [] →
  started_item (_resolveQueueItem m item) = item ∧
  qb_calls (started_query (_resolveQueueItem m item)) =
    qb_calls (createQuery (entity_name (entity item)) (fields item)
                (createTypeORMQueryBuilder (entity_name (entity item)))
                (entity_name (entity item))) ++
    map (applied OrWhere) (orWhere (predicates item)) ++
    map (search_call m (entity_name (entity item))) (search (predicates item)).
Proof.
  intros Hnone. split.
  - unfold _resolveQueueItem. rewrite addAndWhereConditions_calls. cbn [started_item].
    unfold with_andWhere. rewrite Hnone. cbn [tail].
    destruct item as [? ? ? [] ?]. simpl in *. by subst.
  - rewrite (resolveQueueItem_calls m item). cbn [qb_calls].
    by rewrite Hnone.
Qed.

End queries.

(** ** Further properties: what a flush does to the manager *)

Section flushes.
Context `{Collaborators}.

Implicit Types (fl : Flush) (st : Manager * list Invocation).
Implicit Types (schedule : list Continuation) (k : string).

Lemma only_cache_differs_refl (m : Manager) : only_cache_differs m m.
Proof. by split_and!. Qed.

Lemma only_cache_differs_trans (m1 m2 m3 : Manager) :
  only_cache_differs m1 m2 → only_cache_differs m2 m3 → only_cache_differs m1 m3.
Proof.
  intros (? & ? & ? & ? & ?) (? & ? & ? & ? & ?). split_and!; congruence.
Qed.

Lemma reject_each_frame (e : ErrorValue) (l : list (nat * QueueItem)) st :
  let st' := foldl (λ st iq, cache_delete (key iq.2) (invoke (Reject iq.1 e) st)) st l in
  only_cache_differs st.1 st'.1 ∧
  (∀ k, (∀ iq, iq ∈ l → key iq.2 ≠ k) → _cache st'.1 !! k = _cache st.1 !! k).
Proof.
  revert st. induction l as [|[i q] l IH]; intros st; simpl.
  { split; [apply only_cache_differs_refl | done]. }
  destruct (IH (cache_delete (key q) (invoke (Reject i e) st))) as (Hframe & Hkeep).
  split.
  - eapply only_cache_differs_trans; [|exact Hframe]. by split_and!.
  - intros k Hk. rewrite Hkeep.
    + simpl. apply lookup_delete_ne. apply (Hk (i, q)), list_elem_of_here.
    + intros iq Hin. apply Hk. by apply elem_of_cons; right.
Qed.

Lemma run_continuation_frame fl st (c : Continuation) :
  only_cache_differs st.1 (run_continuation fl st c).1.
Proof.
  destruct c as [i|i|]; simpl.
  - unfold run_then. destruct (started fl !! i) as [s|];
      [destruct (started_promise s)|]; apply only_cache_differs_refl.
  - unfold run_finally. destruct (started fl !! i) as [s|]; by split_and!.
  - unfold run_catch. destruct (rejection (transaction fl)) as [e|].
    + apply reject_each_frame.
    + apply only_cache_differs_refl.
Qed.

Lemma run_frame fl schedule st : only_cache_differs st.1 (run fl schedule st).1.
Proof.
  revert st. induction schedule as [|c schedule IH]; intros st.
  { apply only_cache_differs_refl. }
  change (run fl (c :: schedule) st) with (run fl schedule (run_continuation fl st c)).
  eapply only_cache_differs_trans; [apply (run_continuation_frame fl st c)|].
  apply IH.
Qed.

(** A continuation deletes no key but those of the batch and of the
    requests started. *)
Lemma run_continuation_keeps fl st (c : Continuation) k :
  (∀ q, q ∈ batch fl → key q ≠ k) →
  (∀ i s, started fl !! i = Some s → key (started_item s) ≠ k) →
  _cache (run_continuation fl st c).1 !! k = _cache st.1 !! k.
Proof.
  intros Hbatch Hstarted. destruct c as [i|i|]; simpl.
  - unfold run_then. destruct (started fl !! i) as [s|];
      [by destruct (started_promise s)|done].
  - unfold run_finally. destruct (started fl !! i) as [s|] eqn:Hs; [|done].
    simpl. apply lookup_delete_ne. by apply (Hstarted i).
  - unfold run_catch. destruct (rejection (transaction fl)) as [e|]; [|done].
    apply reject_each_frame. intros [i q] Hin. simpl.
    apply elem_of_lookup_imap in Hin as (j & q' & [= -> ->] & Hq).
    apply Hbatch. by eapply list_elem_of_lookup_2.
Qed.

Lemma run_keeps fl schedule st k :
  (∀ q, q ∈ batch fl → key q ≠ k) →
  (∀ i s, started fl !! i = Some s → key (started_item s) ≠ k) →
  _cache (run fl schedule st).1 !! k = _cache st.1 !! k.
Proof.
  intros Hbatch Hstarted. revert st.
  induction schedule as [|c schedule IH]; intros st; [done|].
  change (run fl (c :: schedule) st) with (run fl schedule (run_continuation fl st c)).
  by rewrite IH, run_continuation_keeps.
Qed.

Lemma processQueue_started_key tx (m : Manager) (i : nat) (s : Started) :
  started (_processQueue tx m).1 !! i = Some s →
  ∃ q, _queue m !! i = Some q ∧ key (started_item s) = key q.
Proof.
  rewrite processQueue_unfold. cbn [fst started].
  destruct (callback_called tx); [|done].
  change (map ?f ?l) with (f <$> l). rewrite list_lookup_fmap.
  destruct (_queue m !! i) as [q|]; [|done].
  intros [= <-]. exists q. by rewrite resolveQueueItem_key.
Qed.

Lemma length_flat_map_seq {A} (g : nat → list A) (start n : nat) :
  (∀ i, start ≤ i < start + n → length (g i) = 1) →
  length (flat_map g (seq start n)) = n.
Proof.
  revert start. induction n as [|n IH]; intros start Hone; [done|].
  cbn [seq flat_map]. rewrite length_app, IH, Hone by (intros; try apply Hone; lia).
  done.
Qed.

(** X8.  Whatever the transaction does and in whatever order the event loop
    runs what the flush left pending, at the end the cache is the cache as
    it was without the entries under the keys of the batch: those are all
    gone, every other entry is as it was, nothing was added; and nothing
    else of the manager has changed. *)
Theorem flush_evicts_exactly_its_keys
    (tx : TransactionOutcome) (m : Manager) (schedule : list Continuation)
    (trace : list Invocation) (k : string) :
  schedule ≡ₚ pending (_processQueue tx m).1 →
  _cache (run (_processQueue tx m).1 schedule ((_processQueue tx m).2, trace)).1 !! k =
    (if bool_decide (k ∈ key <$> _queue m) then None else _cache m !! k) ∧
  only_cache_differs (_processQueue tx m).2
    (run (_processQueue tx m).1 schedule ((_processQueue tx m).2, trace)).1.
Proof.
  intros Hperm. split; [|apply run_frame].
  assert (batch (_processQueue tx m).1 = _queue m) as Hbatch
    by (by rewrite processQueue_unfold).
  assert (transaction (_processQueue tx m).1 = tx) as Htx
    by (by rewrite processQueue_unfold).
  assert (_cache (_processQueue tx m).2 = _cache m) as Hcache
    by (by rewrite processQueue_unfold).
  case_bool_decide as Hk.
  - apply list_elem_of_fmap in Hk as (q & -> & Hq).
    apply list_elem_of_lookup in Hq as [i Hq].
    destruct (callback_called tx) eqn:Hcalled.
    + apply (run_deletes _ _ _ (Finally i)).
      * rewrite Hperm. apply finally_pending; [by rewrite Htx|].
        rewrite Hbatch. by apply lookup_lt_Some in Hq.
      * intros st'. rewrite <-(resolveQueueItem_key (_processQueue tx m).2 q).
        apply run_finally_deletes. by apply processQueue_started.
    + destruct tx as [|e|e]; try discriminate.
      apply (run_deletes _ _ _ Catch).
      * rewrite Hperm. apply (catch_pending _ e). by rewrite Htx.
      * intros st'. cbn [run_continuation].
        destruct (run_catch_spec (_processQueue (TxRejectsBeforeCallback e) m).1 st')
          as (_ & _ & _ & Hdel).
        apply (Hdel i); [rewrite Htx; simpl; eauto | by rewrite Hbatch].
  - rewrite run_keeps; [cbn [fst]; by rewrite Hcache| |].
    + rewrite Hbatch. intros q Hq <-. apply Hk, list_elem_of_fmap. eauto.
    + intros i s (q & Hq & ->)%processQueue_started_key <-.
      apply Hk, list_elem_of_fmap. exists q. split; [done|].
      by eapply list_elem_of_lookup_2.
Qed.

(** X9.  A flush that finds the queue empty (a second flush scheduled for
    the same burst) does nothing: the manager is returned as it was and,
    whatever the transaction does, no continuation calls a callback or
    touches the cache. *)
Theorem flush_of_empty_queue
    (tx : TransactionOutcome) (m : Manager) (schedule : list Continuation)
    (trace : list Invocation) :
  _queue m = [] →
  (_processQueue tx m).2 = m ∧
  run (_processQueue tx m).1 schedule (m, trace) = (m, trace).
Proof.
  intros Hempty. rewrite processQueue_unfold, Hempty. cbn [fst snd map].
  split.
  - destruct m. simpl in *. by subst.
  - generalize (m, trace). induction schedule as [|c schedule IH]; intros st; [done|].
    match goal with
    | |- run ?fl _ _ = _ =>
        change (run fl (c :: schedule) st)
          with (run fl schedule (run_continuation fl st c))
    end.
    replace (run_continuation _ st c) with st; [apply IH|].
    destruct c as [i|i|]; simpl.
    + unfold run_then. cbn [started]. by destruct (callback_called tx).
    + unfold run_finally. cbn [started]. by destruct (callback_called tx).
    + unfold run_catch. cbn [transaction batch]. by destruct (rejection tx).
Qed.

(** X10.  When the transaction is rejected before it calls back, no query
    is built or started, and all the flush does afterwards is the catch
    block: [reject] is called with the transaction's error once per request
    of the batch, in the order the requests were enqueued, and nothing else
    is called. *)
Theorem transaction_rejected_before_callback
    (e : ErrorValue) (m : Manager) (schedule : list Continuation)
    (trace : list Invocation) :
  schedule ≡ₚ pending (_processQueue (TxRejectsBeforeCallback e) m).1 →
  started (_processQueue (TxRejectsBeforeCallback e) m).1 = [] ∧
  (run (_processQueue (TxRejectsBeforeCallback e) m).1 schedule
       ((_processQueue (TxRejectsBeforeCallback e) m).2, trace)).2 =
    trace ++ imap (λ i _, Reject i e) (_queue m).
Proof.
  intros Hperm.
  split; [by rewrite processQueue_unfold|].
  assert (schedule = [Catch]) as ->.
  { apply Permutation_singleton_r. rewrite Hperm.
    by rewrite processQueue_unfold. }
  cbn [run foldl run_continuation].
  match goal with
  | |- (run_catch ?fl ?st).2 = _ =>
      destruct (run_catch_spec fl st) as (-> & _)
  end.
  cbn [snd calls]. rewrite processQueue_unfold. cbn [fst transaction rejection batch].
  by rewrite imap_seq_0.
Qed.

(** X11.  The number of callback invocations a flush makes in all, over
    every order of its continuations: one per request of the batch when the
    transaction succeeds or is rejected before calling back, two per request
    when it is rejected after calling back.  No callback is called for
    anything but the requests of the batch. *)
Theorem invocations_per_flush
    (tx : TransactionOutcome) (m : Manager) (schedule : list Continuation) :
  schedule ≡ₚ pending (_processQueue tx m).1 →
  length (run (_processQueue tx m).1 schedule ((_processQueue tx m).2, [])).2 =
    match tx with
    | TxResolves | TxRejectsBeforeCallback _ => length (_queue m)
    | TxRejectsAfterCallback _ => 2 * length (_queue m)
    end ∧
  ∀ inv, inv ∈ (run (_processQueue tx m).1 schedule ((_processQueue tx m).2, [])).2 →
         request_of inv < length (_queue m).
Proof.
  intros Hperm.
  destruct (run_spec (_processQueue tx m).1 schedule ((_processQueue tx m).2, []))
    as (-> & _ & _).
  cbn [snd]. rewrite app_nil_l.
  assert (flat_map (calls (_processQueue tx m).1) schedule ≡ₚ
          flat_map (calls (_processQueue tx m).1) (pending (_processQueue tx m).1))
    as Hcalls by (by rewrite Hperm).
  assert (flat_map (calls (_processQueue tx m).1) (pending (_processQueue tx m).1) =
          (if callback_called tx
           then flat_map (λ i, calls (_processQueue tx m).1 (Then i))
                         (seq 0 (length (_queue m)))
           else []) ++
          (if rejection tx is Some e
           then (λ i, Reject i e) <$> seq 0 (length (_queue m)) else [])) as Hpending.
  { assert (batch (_processQueue tx m).1 = _queue m) as Hbatch
      by (by rewrite processQueue_unfold).
    assert (transaction (_processQueue tx m).1 = tx) as Htx
      by (by rewrite processQueue_unfold).
    unfold pending. rewrite Htx, Hbatch, flat_map_app. f_equal.
    - destruct (callback_called tx); [|done]. apply calls_thens.
    - destruct (rejection tx) as [e|] eqn:He; [|done].
      cbn [flat_map calls]. by rewrite Htx, He, Hbatch, app_nil_r. }
  assert (∀ i, i < length (_queue m) → callback_called tx = true →
               ∃ s, calls (_processQueue tx m).1 (Then i) = [own_call i s]) as Hthen.
  { intros i Hi Hcalled.
    destruct (lookup_lt_is_Some_2 (_queue m) i Hi) as [q Hq].
    cbn [calls]. rewrite (processQueue_started tx m i q) by done. eauto. }
  split.
  - rewrite Hcalls, Hpending, length_app.
    assert (length (if callback_called tx
                    then flat_map (λ i, calls (_processQueue tx m).1 (Then i))
                                  (seq 0 (length (_queue m)))
                    else []) =
            if callback_called tx then length (_queue m) else 0) as ->.
    { destruct (callback_called tx) eqn:Hcalled; [|done].
      apply length_flat_map_seq. intros i Hi.
      destruct (Hthen i) as [s ->]; [lia|done|done]. }
    assert (length (if rejection tx is Some e
                    then (λ i, Reject i e) <$> seq 0 (length (_queue m)) else []) =
            if rejection tx is Some _ then length (_queue m) else 0) as ->.
    { destruct (rejection tx); [|done]. by rewrite length_fmap, length_seq. }
    destruct tx; simpl; lia.
  - intros inv Hinv. rewrite Hcalls, Hpending in Hinv.
    apply elem_of_app in Hinv as [Hinv|Hinv].
    + destruct (callback_called tx) eqn:Hcalled; [|by apply elem_of_nil in Hinv].
      apply list_elem_of_In, in_flat_map in Hinv as (i & Hi & Hinv).
      apply in_seq in Hi. destruct (Hthen i) as [s Hs]; [lia|done|].
      rewrite Hs in Hinv. destruct Hinv as [<-|[]].
      unfold own_call. destruct (started_promise s); simpl; lia.
    + destruct (rejection tx) as [e|]; [|by apply elem_of_nil in Hinv].
      apply list_elem_of_fmap in Hinv as (i & -> & Hi).
      apply elem_of_seq in Hi. simpl. lia.
Qed.

End flushes.

(** ** Further properties: how many flushes are scheduled *)

Section scheduling.
Context `{Collaborators}.

Lemma lookup_keeps_at_most_one
    (info : Info) (where_ : list WhereArgument) (m : Manager) :
  (immediates m = [] ∨ ∃ h, immediates m = [h] ∧ _immediate m = Some h) →
  (immediates (processQueryMeta info where_ m).2 = [] ∨
   ∃ h, immediates (processQueryMeta info where_ m).2 = [h] ∧
        _immediate (processQueryMeta info where_ m).2 = Some h) ∧
  (meta_found (processQueryMeta info where_ m).1 = false →
   immediates (processQueryMeta info where_ m).2 = []).
Proof.
  intros Hone. unfold processQueryMeta. case_bool_decide; cbn [fst snd].
  { split; [done|]. simpl. discriminate. }
  destruct (_immediate m) as [h0|] eqn:Hh0.
  - assert (immediates (clearImmediate h0 m) = []) as Hnone.
    { simpl. destruct Hone as [->|(h & -> & [= ->])]; [done|].
      by rewrite filter_cons_False by (intros Hne; by apply Hne). }
    split; [by left|done].
  - destruct Hone as [Hnone|(h & _ & ?)]; [|done].
    split; [by left|done].
Qed.

(** X12.  In every manager reached from a fresh one by lookups, enqueues
    that follow a missed lookup, [addCacheItem], and scheduled flushes and
    their continuations running, at most one flush is scheduled, and when
    one is, it is the one whose handle the manager remembers. *)
Theorem at_most_one_flush_scheduled (m : Manager) :
  reachable m →
  immediates m = [] ∨ ∃ h, immediates m = [h] ∧ _immediate m = Some h.
Proof.
  induction 1 as [d|info w m _ IH|info w item m _ IH Hmiss|k p m _ IH
                 |tx m m' fl _ IH Hrun|fl schedule trace m _ IH].
  - by left.
  - by apply lookup_keeps_at_most_one.
  - right. exists (next_immediate (processQueryMeta info w m).2).
    destruct (addQueueItem_spec item (processQueryMeta info w m).2)
      as (_ & _ & -> & -> & _).
    destruct (lookup_keeps_at_most_one info w m IH) as [_ ->]; done.
  - done.
  - unfold run_immediate in Hrun.
    destruct IH as [Hnone|(h & Hh & _)].
    + by rewrite Hnone in Hrun.
    + rewrite Hh, processQueue_unfold in Hrun. injection Hrun as _ <-. by left.
  - destruct (run_frame fl schedule (m, trace)) as (_ & Hi & _ & Hs & _).
    cbn [fst] in Hi, Hs. by rewrite Hs, Hi.
Qed.

Lemma lookup_frame (info : Info) (where_ : list WhereArgument) (m : Manager) :
  _queue (processQueryMeta info where_ m).2 = _queue m ∧
  _cache (processQueryMeta info where_ m).2 = _cache m ∧
  _immediate (processQueryMeta info where_ m).2 = _immediate m ∧
  next_immediate (processQueryMeta info where_ m).2 = next_immediate m ∧
  ∀ h, h ∈ immediates (processQueryMeta info where_ m).2 → h ∈ immediates m.
Proof.
  unfold processQueryMeta. case_bool_decide; cbn [snd]; [done|].
  destruct (_immediate m) as [h0|] eqn:Hh0; [|done].
  split_and!; try done. intros h. simpl.
  rewrite list_elem_of_filter_handles. by intros [_ ?].
Qed.

Lemma lookup_misses (info : Info) (where_ : list WhereArgument) (m : Manager) :
  _cache m !! md5_hex (JSON_stringify where_ (graphqlFields info)) = None →
  meta_found (processQueryMeta info where_ m).1 = false.
Proof.
  intros Hmiss. unfold processQueryMeta.
  by rewrite bool_decide_eq_false_2 by (rewrite Hmiss; by intros [? ?]).
Qed.

(** What holds of the scheduled flushes in every reachable manager: there
    is at most one, the remembered one, and its handle is older than the
    next handle [setImmediate] will hand out. *)
Lemma reachable_handles (m : Manager) :
  reachable m →
  (immediates m = [] ∨ ∃ h, immediates m = [h] ∧ _immediate m = Some h) ∧
  (∀ h, h ∈ immediates m → h < next_immediate m).
Proof.
  induction 1 as [d|info w m _ [IH Hfresh]|info w item m _ [IH Hfresh] Hmiss
                 |k p m _ [IH Hfresh]|tx m m' fl _ [IH Hfresh] Hrun
                 |fl schedule trace m _ [IH Hfresh]].
  - split; [by left|]. by intros h Hh%elem_of_nil.
  - split; [by apply lookup_keeps_at_most_one|].
    destruct (lookup_frame info w m) as (_ & _ & _ & -> & Hsub).
    intros h Hh. by apply Hfresh, Hsub.
  - destruct (addQueueItem_spec item (processQueryMeta info w m).2)
      as (_ & _ & Hi & Hr & Hn).
    destruct (lookup_keeps_at_most_one info w m IH) as [_ Hnone].
    rewrite Hi, Hr, Hn, (Hnone Hmiss). split.
    + right. by eexists.
    + intros h ->%list_elem_of_singleton. lia.
  - done.
  - unfold run_immediate in Hrun.
    destruct IH as [Hnone|(h & Hh & _)].
    + by rewrite Hnone in Hrun.
    + rewrite Hh, processQueue_unfold in Hrun. injection Hrun as _ <-.
      split; [by left|]. by intros h' Hh'%elem_of_nil.
  - destruct (run_frame fl schedule (m, trace)) as (_ & Hi & _ & Hs & Hn).
    cbn [fst] in Hi, Hs, Hn. by rewrite Hs, Hi, Hn.
Qed.

Lemma at_most_one_remembered (m : Manager) :
  (immediates m = [] ∨ ∃ h, immediates m = [h] ∧ _immediate m = Some h) →
  scheduled_is_remembered m.
Proof.
  intros [Hnone|(h & Hh & Hi)] h' Hh'.
  - rewrite Hnone in Hh'. by apply elem_of_nil in Hh'.
  - rewrite Hh in Hh'. by apply list_elem_of_singleton in Hh' as ->.
Qed.

Lemma lookup_then_enqueue_next (m : Manager) (r : Request) :
  next_immediate (lookup_then_enqueue m r) = S (next_immediate m).
Proof.
  unfold lookup_then_enqueue.
  destruct (addQueueItem_spec r.2 (processQueryMeta r.1.1 r.1.2 m).2)
    as (_ & _ & _ & _ & ->).
  by destruct (lookup_frame r.1.1 r.1.2 m) as (_ & _ & _ & -> & _).
Qed.

(** The one flush a burst leaves scheduled was scheduled by the burst. *)
Lemma burst_fresh (requests : list Request) (m : Manager) :
  scheduled_is_remembered m →
  Forall (λ r, _cache m !! fingerprint r = None) requests →
  requests ≠ [] →
  ∃ h, immediates (burst requests m) = [h] ∧
       _immediate (burst requests m) = Some h ∧
       next_immediate m ≤ h.
Proof.
  revert m. induction requests as [|r rs IH]; intros m Hrem Hall Hne; [done|].
  apply Forall_cons in Hall as [Hr Hrs].
  destruct (lookup_then_enqueue_miss m r Hrem Hr) as (_ & Hc & Hi & Him).
  change (burst (r :: rs) m) with (burst rs (lookup_then_enqueue m r)).
  destruct rs as [|r' rs'].
  { exists (next_immediate m). by split_and!. }
  destruct (IH (lookup_then_enqueue m r)) as (h & Hh & Hh' & Hle).
  - intros h. rewrite Hi, Him. by intros ->%list_elem_of_singleton.
  - by rewrite Hc.
  - done.
  - exists h. split_and!; [done..|].
    rewrite lookup_then_enqueue_next in Hle. lia.
Qed.

Lemma burst_reachable (requests : list Request) (m : Manager) :
  reachable m →
  Forall (λ r, _cache m !! fingerprint r = None) requests →
  reachable (burst requests m).
Proof.
  revert m. induction requests as [|r rs IH]; intros m Hreach Hall; [done|].
  apply Forall_cons in Hall as [Hr Hrs].
  change (burst (r :: rs) m) with (burst rs (lookup_then_enqueue m r)).
  apply IH.
  - apply reach_enqueue; [done|]. by apply lookup_misses.
  - destruct (lookup_then_enqueue_miss m r) as (_ & -> & _); [|done..].
    by apply at_most_one_remembered, reachable_handles.
Qed.

(** C2.  An enqueue is the lookup that missed followed by [addQueueItem],
    on a manager reached by using the public methods that way.  For every
    non-empty burst of synchronous enqueues, a single one included: every
    request is appended to the live queue, in order; a flush that was
    scheduled when the burst began is cancelled, and a new one is scheduled,
    the only one, whose handle the manager remembers.  So the burst results
    in exactly one flush execution: the scheduled flush takes the whole
    queue, and after it none is left to run. *)
Theorem enqueue_cancels_and_reschedules
    (m : Manager) (requests : list Request) (tx : TransactionOutcome) :
  reachable m →
  Forall (λ r, _cache m !! fingerprint r = None) requests →
  requests ≠ [] →
  _queue (burst requests m) = _queue m ++ requests.*2 ∧
  (∀ h, h ∈ immediates m → h ∉ immediates (burst requests m)) ∧
  (∃ h, immediates (burst requests m) = [h] ∧
        _immediate (burst requests m) = Some h) ∧
  reachable (burst requests m) ∧
  ∃ fl m',
    run_immediate tx (burst requests m) = Some (fl, m') ∧
    batch fl = _queue (burst requests m) ∧
    _queue m' = [] ∧
    run_immediate tx m' = None.
Proof.
  intros Hreach Hall Hne.
  destruct (reachable_handles m Hreach) as [Hone Hfresh].
  pose proof (at_most_one_remembered m Hone) as Hrem.
  destruct (burst_spec requests m Hrem Hall) as (Hq & _ & _ & _).
  destruct (burst_fresh requests m Hrem Hall Hne) as (h & Hi & Him & Hle).
  split_and!.
  - done.
  - intros h' Hh'. rewrite Hi. intros ->%list_elem_of_singleton.
    apply Hfresh in Hh'. lia.
  - eauto.
  - by apply burst_reachable.
  - unfold run_immediate. rewrite Hi, processQueue_unfold.
    eexists _, _. split_and!; done.
Qed.

End scheduling.


(** ** The model evaluated on the sample collaborators *)

Module Examples.
Import Sample.

Example search_users_query :
  qb_calls (started_query (_resolveQueueItem (new_manager None) search_users)) =
    [Select []; OtherCall "createQuery";
     Where (ArgString "user.age > :age") (Some {[ "age" := "18" ]});
     AndWhere (ArgBrackets (mkBrackets 1)) None;
     AndWhere (ArgString "user.active") None;
     OrWhere (ArgString "user.admin") None;
     AndWhere (ArgString "(User.email LIKE :searchText)")
              (Some {[ "searchText" := "jo%" ]});
     AndWhere
       (ArgString
          "(User.nick LIKE :searchText OR User.firstName || ' ' || User.lastName LIKE :searchText)")
       (Some {[ "searchText" := "%do%" ]})].
Proof. vm_compute. reflexivity. Qed.

Example search_users_after_building :
  predicates (started_item (_resolveQueueItem (new_manager None) search_users)) =
    {| andWhere := [composite; active]; orWhere := [admin];
       search := [by_email; by_name]; order := []; selectFields := [] |}.
Proof. reflexivity. Qed.

Example two_enqueues_schedule_two_flushes :
  let m := addQueueItem missing (addQueueItem user (new_manager None)) in
  immediates m = [0; 1] ∧ _immediate m = Some 1 ∧ _queue m = [user; missing].
Proof. by split_and!. Qed.

Example lookup_cancels_the_remembered_flush :
  let m := addQueueItem user (new_manager None) in
  let '(meta, m') := processQueryMeta "post" [] m in
  meta_found meta = false ∧ meta_key meta = "md5:|post" ∧
  immediates m = [0] ∧ immediates m' = [] ∧ _immediate m' = Some 0.
Proof. vm_compute. by split_and!. Qed.

Example flush_of_two_queued :
  let '(fl, m) := _processQueue TxResolves two_queued in
  batch fl = [user; missing] ∧ _queue m = [] ∧
  map started_promise (started fl) = [Fulfilled "User"; RejectedWith "no such table"] ∧
  (run fl (pending fl) (m, [])).2 = [Resolve 0 "User"; Reject 1 "no such table"] ∧
  _cache (run fl (pending fl) (m, [])).1 = ∅.
Proof. vm_compute. by split_and!. Qed.

Example any_position_group_placed_as_prefix :
  let group :=
    {| searchColumns := [Column "email"]; searchText := "jo";
       searchMethod := Some NumericEnum.ANY_POSITION; caseSensitive := None |} in
  map query_params
      (_formatSearchConditions (new_manager (Some NumericEnum.STARTS_WITH)) [group] "user")
    = [{[ "searchText" := "jo%" ]}] ∧
  getSearchMethodMapping NumericEnum.ANY_POSITION "jo" = "%jo%".
Proof. vm_compute. by split. Qed.

Lemma processQueryMeta_cache_hit_witness :
  let m := addCacheItem "md5:a|user" 7 (addQueueItem user (new_manager None)) in
  processQueryMeta "user" [ArgString "a"] m =
    ({| meta_key := ""; meta_fields := Some (Field "user" NoFields None NoFields);
        meta_found := true; meta_item := Some 7 |}, m).
Proof.
  intros m.
  apply (processQueryMeta_cache_hit (H := collaborators) "user" [ArgString "a"] m 7).
  vm_compute. reflexivity.
Defined.

Lemma enqueue_cancels_and_reschedules_witness :
  let m := addQueueItem user (processQueryMeta "user" [] (new_manager None)).2 in
  let requests : list Request :=
    [("post", [ArgString "a"], request "Post" "k3");
     ("tag", [], request "Tag" "k4")] in
  immediates m = [0] ∧
  (_queue (burst requests m) = _queue m ++ requests.*2 ∧
   (∀ h, h ∈ immediates m → h ∉ immediates (burst requests m)) ∧
   (∃ h, immediates (burst requests m) = [h] ∧
         _immediate (burst requests m) = Some h) ∧
   reachable (burst requests m) ∧
   ∃ fl m',
     run_immediate TxResolves (burst requests m) = Some (fl, m') ∧
     batch fl = _queue (burst requests m) ∧
     _queue m' = [] ∧
     run_immediate TxResolves m' = None).
Proof.
  intros m requests. split; [reflexivity|].
  apply (enqueue_cancels_and_reschedules m requests TxResolves).
  - apply (reach_enqueue (H := collaborators) "user" []); [|reflexivity].
    apply reach_new.
  - repeat constructor.
  - discriminate.
Defined.

Lemma search_groups_share_searchText_witness :
  let m := new_manager None in
  let qb := createTypeORMQueryBuilder "User" in
  let first :=
    {| query := "(User.email LIKE :searchText)";
       query_params := {[ "searchText" := "jo%" ]} |} in
  let second :=
    {| query :=
         "(User.nick LIKE :searchText OR User.firstName || ' ' || User.lastName LIKE :searchText)";
       query_params := {[ "searchText" := "%do%" ]} |} in
  map query_params (_formatSearchConditions m [by_email; by_name] "User") =
    [{[ "searchText" := "jo%" ]}; {[ "searchText" := "%do%" ]}] ∧
  qb_calls (_addSearchConditions m qb "User" [by_email; by_name]) =
    [Select [];
     AndWhere (ArgString (query first)) (Some {[ "searchText" := "jo%" ]});
     AndWhere (ArgString (query second)) (Some {[ "searchText" := "%do%" ]})] ∧
  (dom (query_params first) = {[ "searchText" ]} ∧
   dom (query_params first) = dom (query_params second)) ∧
  dom (⋃ (query_params <$> _formatSearchConditions m [by_email; by_name] "User"))
    ⊆ ({[ "searchText" ]} : gset string).
Proof.
  intros m qb first second.
  destruct (search_groups_share_searchText m qb "User" [by_email; by_name])
    as (Hparams & Hcalls & Hnames & Hall).
  split; [exact Hparams|]. split; [exact Hcalls|]. split; [|exact Hall].
  apply (Hnames first second).
  - apply list_elem_of_here.
  - apply elem_of_cons. right. apply list_elem_of_here.
Defined.

Lemma transaction_failure_rejects_batch_witness :
  let tx := TxRejectsAfterCallback "connection lost" in
  let schedule := [Then 1; Catch; Finally 0; Then 0; Finally 1] in
  Reject 1 "connection lost" ∈
    (run (_processQueue tx two_queued).1 schedule ((_processQueue tx two_queued).2, [])).2 ∧
  _cache (run (_processQueue tx two_queued).1 schedule
              ((_processQueue tx two_queued).2, [])).1 !! key missing = None.
Proof.
  intros tx schedule.
  apply (transaction_failure_rejects_batch
           tx "connection lost" two_queued schedule [] 1 missing).
  - reflexivity.
  - vm_compute (pending _). subst schedule. solve_Permutation.
  - reflexivity.
Defined.

(** C5 as stated fails when the transaction is rejected after it has called
    back: the request's query is fulfilled and [resolve] is called, and the
    catch block calls [reject] as well. *)
Lemma both_callbacks_invoked :
  let tx := TxRejectsAfterCallback "connection lost" in
  invocations_of 0
    (run (_processQueue tx two_queued).1 (pending (_processQueue tx two_queued).1)
         ((_processQueue tx two_queued).2, [])).2
  = [Resolve 0 "User"; Reject 0 "connection lost"] ∧
  ¬ one_callback_once tx two_queued (pending (_processQueue tx two_queued).1) 0.
Proof.
  intros tx.
  assert (invocations_of 0
    (run (_processQueue tx two_queued).1 (pending (_processQueue tx two_queued).1)
         ((_processQueue tx two_queued).2, [])).2
    = [Resolve 0 "User"; Reject 0 "connection lost"]) as Htrace
    by (vm_compute; reflexivity).
  split; [done|].
  intros [inv Hone]. rewrite Htrace in Hone. discriminate.
Qed.

Lemma callbacks_per_request_witness :
  let tx := TxRejectsAfterCallback "connection lost" in
  let schedule := [Catch; Then 1; Then 0; Finally 1; Finally 0] in
  invocations_of 1
    (run (_processQueue tx two_queued).1 schedule ((_processQueue tx two_queued).2, [])).2
  ≡ₚ [Reject 1 "no such table"; Reject 1 "connection lost"].
Proof.
  intros tx schedule.
  refine (callbacks_per_request tx two_queued schedule 1 missing _ _).
  - reflexivity.
  - vm_compute (pending _). subst schedule. solve_Permutation.
Defined.

Lemma settled_request_leaves_cache_witness :
  let fl := (_processQueue TxResolves two_queued).1 in
  let schedule := [Then 1; Then 0; Finally 1; Finally 0] in
  _cache (run_finally fl 1 (two_queued, [])).1 !! "k2" = None ∧
  _cache (run fl schedule ((_processQueue TxResolves two_queued).2, [])).1 !! "k2" = None.
Proof.
  intros fl schedule.
  apply (settled_request_leaves_cache two_queued schedule (two_queued, []) [] 1 missing).
  - reflexivity.
  - vm_compute (pending _). subst schedule. solve_Permutation.
Defined.

Lemma falsy_search_method_gets_default_witness :
  let group :=
    {| searchColumns := [Column "email"; JoinedColumns ["firstName"; "lastName"]];
       searchText := "jo";
       searchMethod := Some NumericEnum.ANY_POSITION;
       caseSensitive := Some true |} in
  _formatSearchConditions (new_manager (Some NumericEnum.STARTS_WITH)) [group] "user" =
    [{| query :=
          "(user.email LIKE :searchText OR user.firstName || ' ' || user.lastName LIKE :searchText)";
        query_params := {[ "searchText" := "jo%" ]} |}].
Proof.
  intros group.
  refine (falsy_search_method_gets_default
            (new_manager (Some NumericEnum.STARTS_WITH)) "user" group _).
  reflexivity.
Defined.

End Examples.

(** ** The further properties evaluated on the sample collaborators *)

Module MoreExamples.
Import Sample.

Lemma processQueryMeta_cache_miss_witness :
  let m := addQueueItem user (new_manager None) in
  (processQueryMeta "post" [] m).1 =
    {| meta_key := "md5:|post";
       meta_fields := Some (Field "post" NoFields None NoFields);
       meta_found := false; meta_item := None |} ∧
  _queue (processQueryMeta "post" [] m).2 = [user] ∧
  _cache (processQueryMeta "post" [] m).2 = ∅ ∧
  _immediate (processQueryMeta "post" [] m).2 = Some 0 ∧
  next_immediate (processQueryMeta "post" [] m).2 = 1 ∧
  ∀ h, h ∈ immediates (processQueryMeta "post" [] m).2 ↔
       h ∈ [0] ∧ Some 0 ≠ Some h.
Proof.
  intros m.
  refine (processQueryMeta_cache_miss (H := collaborators) "post" [] m _).
  reflexivity.
Defined.

Lemma second_lookup_hits_witness :
  let m := new_manager None in
  let m2 :=
    addCacheItem "md5:a|user" 7
      (addQueueItem user (processQueryMeta "user" [ArgString "a"] m).2) in
  processQueryMeta "user" [ArgString "a"] m2 =
    ({| meta_key := ""; meta_fields := Some (Field "user" NoFields None NoFields);
        meta_found := true; meta_item := Some 7 |}, m2) ∧
  _queue m2 = [user].
Proof.
  intros m m2.
  refine (second_lookup_hits (H := collaborators) "user" [ArgString "a"] user 7 m _).
  reflexivity.
Defined.

Lemma lookup_after_flush_ran_changes_nothing_witness :
  _immediate after_flush = Some 0 ∧ immediates after_flush = [] ∧
  (processQueryMeta "post" [] after_flush).2 = after_flush.
Proof.
  split; [reflexivity|]. split; [reflexivity|].
  apply (lookup_after_flush_ran_changes_nothing (H := collaborators) "post" [] after_flush).
  - reflexivity.
  - intros h _. apply not_elem_of_nil.
Defined.

Lemma search_method_selection_witness :
  map query_params (_formatSearchConditions (new_manager None) [by_email] "User") =
    [{[ "searchText" := "jo%" ]}].
Proof.
  refine (search_method_selection None "User" by_email _).
  intros method [= <-]. reflexivity.
Defined.

Lemma search_group_without_columns_witness :
  let group :=
    {| searchColumns := []; searchText := "jo"; searchMethod := None;
       caseSensitive := None |} in
  qb_calls (_addSearchConditions (new_manager None)
              (createTypeORMQueryBuilder "User") "User" [group]) =
    [Select []; AndWhere (ArgString "()") (Some {[ "searchText" := "%jo%" ]})].
Proof.
  intros group.
  refine (search_group_without_columns
            (new_manager None) (createTypeORMQueryBuilder "User") "User" group _).
  reflexivity.
Defined.

Lemma resolveQueueItem_without_and_conditions_witness :
  let item :=
    {| many := true; key := "k5"; fields := None;
       predicates :=
         {| andWhere := []; orWhere := [admin]; search := [by_email];
            order := []; selectFields := [] |};
       entity := EntityByName "User" |} in
  started_item (_resolveQueueItem (new_manager None) item) = item ∧
  qb_calls (started_query (_resolveQueueItem (new_manager None) item)) =
    [Select []; OtherCall "createQuery"; OrWhere (ArgString "user.admin") None;
     AndWhere (ArgString "(User.email LIKE :searchText)")
              (Some {[ "searchText" := "jo%" ]})].
Proof.
  intros item.
  refine (resolveQueueItem_without_and_conditions (new_manager None) item _).
  reflexivity.
Defined.

Lemma flush_evicts_exactly_its_keys_witness :
  let tx := TxRejectsAfterCallback "connection lost" in
  let schedule := [Then 1; Catch; Finally 0; Then 0; Finally 1] in
  let m := two_queued_and_another in
  (_cache (run (_processQueue tx m).1 schedule ((_processQueue tx m).2, [])).1 !! "k7" =
     (if bool_decide ("k7" ∈ key <$> _queue m) then None else _cache m !! "k7") ∧
   only_cache_differs (_processQueue tx m).2
     (run (_processQueue tx m).1 schedule ((_processQueue tx m).2, [])).1) ∧
  _cache m !! "k7" = Some 17 ∧ bool_decide ("k7" ∈ key <$> _queue m) = false.
Proof.
  intros tx schedule m. split; [|by vm_compute].
  apply (flush_evicts_exactly_its_keys tx m schedule [] "k7").
  vm_compute (pending _). subst schedule. solve_Permutation.
Defined.

Lemma flush_of_empty_queue_witness :
  let m := addCacheItem "k7" 17 (new_manager None) in
  let tx := TxRejectsAfterCallback "connection lost" in
  (_processQueue tx m).2 = m ∧
  run (_processQueue tx m).1 [Catch; Then 0; Finally 0] (m, []) = (m, []).
Proof.
  intros m tx.
  apply (flush_of_empty_queue tx m [Catch; Then 0; Finally 0] []).
  reflexivity.
Defined.

Lemma transaction_rejected_before_callback_witness :
  let tx := TxRejectsBeforeCallback "no connection" in
  started (_processQueue tx two_queued).1 = [] ∧
  (run (_processQueue tx two_queued).1 [Catch] ((_processQueue tx two_queued).2, [])).2 =
    [] ++ imap (λ i _, Reject i "no connection") (_queue two_queued).
Proof.
  intros tx.
  apply (transaction_rejected_before_callback "no connection" two_queued [Catch] []).
  vm_compute (pending _). solve_Permutation.
Defined.

Lemma invocations_per_flush_witness :
  let tx := TxRejectsAfterCallback "connection lost" in
  let schedule := [Then 1; Catch; Finally 0; Then 0; Finally 1] in
  length (run (_processQueue tx two_queued).1 schedule
              ((_processQueue tx two_queued).2, [])).2 = 2 * length (_queue two_queued) ∧
  ∀ inv, inv ∈ (run (_processQueue tx two_queued).1 schedule
                    ((_processQueue tx two_queued).2, [])).2 →
         request_of inv < length (_queue two_queued).
Proof.
  intros tx schedule.
  refine (invocations_per_flush tx two_queued schedule _).
  vm_compute (pending _). subst schedule. solve_Permutation.
Defined.

Lemma at_most_one_flush_scheduled_witness :
  let m := addQueueItem missing
             (processQueryMeta "missing" []
                (addCacheItem "md5:|user" 11
                   (addQueueItem user (processQueryMeta "user" [] (new_manager None)).2))).2 in
  (immediates m = [] ∨ ∃ h, immediates m = [h] ∧ _immediate m = Some h) ∧
  immediates m = [1].
Proof.
  intros m. split; [|reflexivity].
  apply (at_most_one_flush_scheduled (H := collaborators) m).
  apply (reach_enqueue (H := collaborators) "missing" []); [|reflexivity].
  apply reach_cache.
  apply (reach_enqueue (H := collaborators) "user" []); [|reflexivity].
  apply reach_new.
Defined.

Lemma addCacheItem_and_lookups_witness :
  let m := addQueueItem user (new_manager None) in
  processQueryMeta "post" [] (addCacheItem "md5:|user" 11 m) =
    ((processQueryMeta "post" [] m).1,
     addCacheItem "md5:|user" 11 (processQueryMeta "post" [] m).2).
Proof.
  intros m.
  refine (proj2 (addCacheItem_and_lookups (H := collaborators)
                   "post" [] "md5:|user" 11 m) _).
  discriminate.
Defined.

End MoreExamples.
